(** * ping-tool: the log view of [src/main.js]

    A shallow embedding of the front end's log reconciliation and probe
    lifecycle code, and the properties of its specification.

    - JavaScript values are a small tagged union.  Numbers are IEEE 754
      binary64, so they are Rocq's primitive floats, and [>=] and [!==] on
      them are the IEEE comparisons.  Strings are sequences of UTF-16 code
      units.
    - The module-level variables ([running], [logs], [pollTimer],
      [autoScroll]) are fields of one [state] record, next to what the code
      does to its surroundings: the error line, the calls of [renderLogs],
      the interval timers of the window, the commands sent to the backend
      and the promises that are still pending.
    - An [async] function is cut at each [await]: the part before it runs in
      the event that calls the function, the part after it in the event that
      settles the promise.  Events (clicks, scrolling, timer ticks,
      "ping-log" deliveries, settlements) interleave freely; each runs to
      completion.
    - [Page] adds what the same functions write to the page (the list, the
      controls, the scroll buttons) and the choice of the log directory;
      [Alert] has the form of the mail server, the test mail and the export.
      Loading, saving and importing the settings write to the form through
      the coercions of the browser; they are left out, as are the dialog and
      its tabs. *)

From Stdlib Require Import String Ascii List Bool Arith NArith ZArith Lia.
From Stdlib Require Import Floats.
Import ListNotations.

Local Open Scope list_scope.

(** ** Numbers *)

Module Num.

(** [a >= b], [a !== b] and [a < b] on numbers. *)
Definition ge (a b : float) : bool := PrimFloat.leb b a.
Definition strict_ne (a b : float) : bool := negb (PrimFloat.eqb a b).
Definition lt (a b : float) : bool := PrimFloat.ltb a b.

Definition is_nan (a : float) : bool := PrimFloat.is_nan a.

(** [Number.isInteger]: finite, and no bit of the mantissa below the
    binary point. *)
Definition is_integer (a : float) : bool :=
  match Prim2SF a with
  | S754_zero _ => true
  | S754_finite _ m e =>
      (0 <=? e)%Z || (Z.pos m mod 2 ^ (- e) =? 0)%Z
  | S754_infinity _ | S754_nan => false
  end.

(** The number written as the non-negative integer literal [n]. *)
Definition of_nat (n : nat) : float :=
  PrimFloat.of_uint63 (Uint63.of_Z (Z.of_nat n)).

(** ToInt32, the conversion of a number given to an attribute that is a
    32-bit integer: NaN, the zeros and the infinities give 0; another
    number is cut to its integer part, taken modulo 2^32 and read as
    signed. *)
Definition ToInt32 (a : float) : Z :=
  match Prim2SF a with
  | S754_finite s m e =>
      let magnitude :=
        if (0 <=? e)%Z then (Z.pos m * 2 ^ e)%Z
        else (Z.pos m / 2 ^ (- e))%Z in
      let int := if s then (- magnitude)%Z else magnitude in
      let int32bit := (int mod 2 ^ 32)%Z in
      if (2 ^ 31 <=? int32bit)%Z then (int32bit - 2 ^ 32)%Z else int32bit
  | S754_zero _ | S754_infinity _ | S754_nan => 0%Z
  end.

End Num.

(** ** Strings *)

Definition jsstring : Type := list N.

(** A literal of the source, for the characters of ASCII. *)
Definition lit (s : string) : jsstring :=
  map N_of_ascii (list_ascii_of_string s).

Fixpoint str_eqb (s t : jsstring) : bool :=
  match s, t with
  | [], [] => true
  | c :: s', d :: t' => N.eqb c d && str_eqb s' t'
  | _, _ => false
  end.

(** The code units [String.prototype.trim] strips: ECMAScript's WhiteSpace
    (TAB, VT, FF, SP, NBSP, ZWNBSP and the other space separators) and
    LineTerminator (LF, CR, LS, PS). *)
Definition isWhiteSpace (c : N) : bool :=
  (existsb (N.eqb c)
     [9; 10; 11; 12; 13; 32; 160; 5760; 8232; 8233; 8239; 8287; 12288; 65279]
   || ((8192 <=? c) && (c <=? 8202)))%N.

Fixpoint trimStart (s : jsstring) : jsstring :=
  match s with
  | [] => []
  | c :: s' => if isWhiteSpace c then trimStart s' else s
  end.

Definition trimEnd (s : jsstring) : jsstring := rev (trimStart (rev s)).

Definition trim (s : jsstring) : jsstring := trimEnd (trimStart s).

(** ** Values *)

#[local] Set Warnings "-register-all".

Inductive value : Type :=
| VUndefined
| VNull
| VBool (b : bool)
| VNum (x : float)
| VStr (s : jsstring)
| VArr (items : list value)
| VObj (props : list (jsstring * value)).

Inductive jstype : Type :=
| TUndefined | TObject | TBoolean | TNumber | TString.

Definition typeof (v : value) : jstype :=
  match v with
  | VUndefined => TUndefined
  | VNull | VArr _ | VObj _ => TObject
  | VBool _ => TBoolean
  | VNum _ => TNumber
  | VStr _ => TString
  end.

Definition jstype_eqb (a b : jstype) : bool :=
  match a, b with
  | TUndefined, TUndefined | TObject, TObject | TBoolean, TBoolean
  | TNumber, TNumber | TString, TString => true
  | _, _ => false
  end.

(** ToBoolean: what [!v] and [v ? _ : _] test. *)
Definition truthy (v : value) : bool :=
  match v with
  | VUndefined | VNull => false
  | VBool b => b
  | VNum x => negb (PrimFloat.eqb x 0 || Num.is_nan x)
  | VStr s => negb (str_eqb s [])
  | VArr _ | VObj _ => true
  end.

Definition isArray (v : value) : bool :=
  match v with VArr _ => true | _ => false end.

Fixpoint lookup (k : jsstring) (props : list (jsstring * value)) : value :=
  match props with
  | [] => VUndefined
  | (k', v) :: rest => if str_eqb k k' then v else lookup k rest
  end.

(** [v.k] for the property names the code reads ([seq], [line], [payload]):
    an own property of an object, and [undefined] on anything else that is
    not [null] or [undefined] (the code reads a property only behind a
    truthiness test, so the throwing cases are never asked for). *)
Definition get (v : value) (k : jsstring) : value :=
  match v with
  | VObj props => lookup k props
  | _ => VUndefined
  end.

Definition k_seq : jsstring := lit "seq".
Definition k_line : jsstring := lit "line".
Definition k_payload : jsstring := lit "payload".

(** ** Log entries *)

(** What [logs] holds: [addLog] and [normalizeEntries] only let objects with
    a number [seq] and a string [line] through. *)
Record entry : Type := mkEntry { seq : float; line : jsstring }.

(** The object [{ seq: s, line: l }]. *)
Definition obj_of_entry (e : entry) : value :=
  VObj [(k_seq, VNum (seq e)); (k_line, VStr (line e))].

(** The shape test of [addLog] and [normalizeEntries],
    [!item || typeof item.seq !== "number" || typeof item.line !== "string"],
    negated. *)
Definition well_shaped (item : value) : bool :=
  negb (negb (truthy item)
        || negb (jstype_eqb (typeof (get item k_seq)) TNumber)
        || negb (jstype_eqb (typeof (get item k_line)) TString)).

(** The entry a value is taken as, when it passes the shape test. *)
Definition as_entry (item : value) : option entry :=
  if well_shaped item then
    match get item k_seq, get item k_line with
    | VNum s, VStr l => Some (mkEntry s l)
    | _, _ => None
    end
  else None.

(** ** The state *)

Definition maxLogs : nat := 100.

Definition autoScrollThreshold : float := 6.

(** A command sent to the backend with [invoke]. *)
Inductive command : Type :=
| start_ping (address : jsstring)
| stop_ping
| get_recent_logs.

(** How a promise of [invoke] settles: with a value, or rejected (the reason
    is kept as the text [String(err)] that [setError] shows). *)
Inductive response : Type :=
| Resolved (v : value)
| Rejected (msg : jsstring).

(** A suspended [async] function: the [await] it is parked at.  A pending
    [fetchLogs] remembers whether [startPing] awaits it in turn. *)
Inductive task : Type :=
| AwaitStart
| AwaitStop
| AwaitPoll (from_start : bool).

Record state : Type := mkState {
  (* the module's variables *)
  invoke     : bool;                (* [invoke] is a function, not [null] *)
  running    : bool;
  logs       : list entry;
  pollTimer  : option nat;          (* [null], or the handle of an interval *)
  autoScroll : bool;
  (* the page *)
  errorText  : jsstring;            (* [errorText.textContent] *)
  logPath    : value;               (* what [logPath.textContent] was given *)
  renders    : nat;                 (* calls of [renderLogs] so far *)
  (* the window and the backend *)
  timers     : list (nat * nat);    (* live intervals: handle, period in ms *)
  next_timer : nat;                 (* the handle [setInterval] gives next *)
  invoked    : list command;        (* commands sent so far, oldest first *)
  pending    : list task            (* promises not settled yet *)
}.

Definition set_running (b : bool) (st : state) : state :=
  mkState (invoke st) b (logs st) (pollTimer st) (autoScroll st)
    (errorText st) (logPath st) (renders st) (timers st) (next_timer st)
    (invoked st) (pending st).

Definition set_logs (l : list entry) (st : state) : state :=
  mkState (invoke st) (running st) l (pollTimer st) (autoScroll st)
    (errorText st) (logPath st) (renders st) (timers st) (next_timer st)
    (invoked st) (pending st).

Definition set_pollTimer (t : option nat) (st : state) : state :=
  mkState (invoke st) (running st) (logs st) t (autoScroll st)
    (errorText st) (logPath st) (renders st) (timers st) (next_timer st)
    (invoked st) (pending st).

Definition set_autoScroll (b : bool) (st : state) : state :=
  mkState (invoke st) (running st) (logs st) (pollTimer st) b
    (errorText st) (logPath st) (renders st) (timers st) (next_timer st)
    (invoked st) (pending st).

Definition set_errorText (s : jsstring) (st : state) : state :=
  mkState (invoke st) (running st) (logs st) (pollTimer st) (autoScroll st)
    s (logPath st) (renders st) (timers st) (next_timer st)
    (invoked st) (pending st).

Definition set_logPath (v : value) (st : state) : state :=
  mkState (invoke st) (running st) (logs st) (pollTimer st) (autoScroll st)
    (errorText st) v (renders st) (timers st) (next_timer st)
    (invoked st) (pending st).

Definition set_renders (n : nat) (st : state) : state :=
  mkState (invoke st) (running st) (logs st) (pollTimer st) (autoScroll st)
    (errorText st) (logPath st) n (timers st) (next_timer st)
    (invoked st) (pending st).

Definition set_timers (ts : list (nat * nat)) (next : nat) (st : state) : state :=
  mkState (invoke st) (running st) (logs st) (pollTimer st) (autoScroll st)
    (errorText st) (logPath st) (renders st) ts next
    (invoked st) (pending st).

Definition set_pending (ps : list task) (st : state) : state :=
  mkState (invoke st) (running st) (logs st) (pollTimer st) (autoScroll st)
    (errorText st) (logPath st) (renders st) (timers st) (next_timer st)
    (invoked st) ps.

(** [await invoke(c)]: the command goes out and the caller is parked. *)
Definition await_invoke (c : command) (k : task) (st : state) : state :=
  mkState (invoke st) (running st) (logs st) (pollTimer st) (autoScroll st)
    (errorText st) (logPath st) (renders st) (timers st) (next_timer st)
    (invoked st ++ [c]) (pending st ++ [k]).

(** The state when the script has run: nothing is going on yet. *)
Definition init : state :=
  mkState true false [] None true [] VUndefined 0 [] 1 [] [].

(** ** The window's timers *)

(** [setInterval(fetchLogs, ms)]: a fresh non-zero handle. *)
Definition setInterval (ms : nat) (st : state) : nat * state :=
  let h := next_timer st in
  (h, set_timers ((h, ms) :: timers st) (S h) st).

(** [clearInterval(h)] *)
Definition clearInterval (h : nat) (st : state) : state :=
  set_timers (filter (fun t => negb (fst t =? h)) (timers st)) (next_timer st) st.

(** ** The functions of main.js *)

(** [renderLogs] rewrites the list on the page from [logs] and [autoScroll]
    and changes none of the module's variables; the model counts its calls. *)
Definition renderLogs (st : state) : state :=
  set_renders (S (renders st)) st.

(** [addLog(entry)] *)
Definition addLog (item : value) (st : state) : state :=
  match as_entry item with
  | None => st
  | Some e =>
      if (0 <? length (logs st))
         && Num.ge (seq (last (logs st) e)) (seq e)
      then st
      else
        let appended := logs st ++ [e] in
        let kept :=
          if maxLogs <? length appended then tl appended else appended in
        renderLogs (set_logs kept st)
  end.

(** One turn of the loop of [logsEqual]: neither [seq] nor [line] differs
    under [!==]. *)
Definition same_entry (p : entry * entry) : bool :=
  negb (Num.strict_ne (seq (fst p)) (seq (snd p))
        || negb (str_eqb (line (fst p)) (line (snd p)))).

(** [logsEqual(next)] *)
Definition logsEqual (logs next : list entry) : bool :=
  if negb (length logs =? length next) then false
  else forallb same_entry (combine logs next).

(** The [forEach] of [normalizeEntries]: the well-shaped items, in order. *)
Fixpoint collect (items : list value) : list entry :=
  match items with
  | [] => []
  | item :: rest =>
      match as_entry item with
      | None => collect rest
      | Some e => e :: collect rest
      end
  end.

(** [normalizeEntries(raw)] *)
Definition normalizeEntries (raw : value) : list entry :=
  match raw with
  | VArr items => collect items
  | _ => []
  end.

Definition array_length (v : value) : nat :=
  match v with VArr items => length items | _ => 0 end.

(** [fetchLogs], from the value [recent] of the [await] to the end of the
    [try] block. *)
Definition apply_recent (recent : value) (st : state) : state :=
  let entries := normalizeEntries recent in
  if (length entries =? 0) && truthy recent && isArray recent
     && (0 <? array_length recent)
  then st
  else if (length entries =? 0) && (length (logs st) =? 0)
  then renderLogs st
  else
    let sliced := firstn maxLogs entries in
    if logsEqual (logs st) sliced then st
    else renderLogs (set_logs sliced st).

(** [startPing], after [await fetchLogs()]: the stale interval is cleared and
    a new one is set. *)
Definition arm_poll (st : state) : state :=
  let st1 :=
    match pollTimer st with
    | Some h => clearInterval h st
    | None => st
    end in
  let (h, st2) := setInterval 1000 st1 in
  set_pollTimer (Some h) st2.

(** What runs when the promise of [fetchLogs()] is fulfilled: the rest of
    [startPing] if it was the caller, nothing for the interval. *)
Definition after_fetch (from_start : bool) (st : state) : state :=
  if from_start then arm_poll st else st.

(** [fetchLogs()], up to the [await]. *)
Definition fetchLogs (from_start : bool) (st : state) : state :=
  if negb (invoke st) then after_fetch from_start st
  else await_invoke get_recent_logs (AwaitPoll from_start) st.

(** [fetchLogs], when its [invoke] settles: a rejection is caught and
    ignored. *)
Definition fetchLogs_settled (from_start : bool) (r : response) (st : state)
  : state :=
  after_fetch from_start
    match r with
    | Resolved recent => apply_recent recent st
    | Rejected _ => st
    end.

(** [setRunning(next)]: the variable; the buttons and the status line follow
    it. *)
Definition setRunning (next : bool) (st : state) : state :=
  set_running next st.

(** [setError(message)]: the code shows a string as it is (and the empty
    string for a missing message). *)
Definition setError (message : jsstring) (st : state) : state :=
  set_errorText message st.

(** The text shown for an empty address, "请输入目标地址。". *)
Definition msg_no_address : jsstring :=
  [35831; 36755; 20837; 30446; 26631; 22320; 22336; 12290]%N.

(** [String(err)] of the TypeError of calling [invoke] when it is [null]. *)
Definition msg_no_invoke : jsstring :=
  lit "TypeError: invoke is not a function".

(** [startPing()], up to [await invoke("start_ping", ...)]; [box] is
    [addressInput.value]. *)
Definition startPing (box : jsstring) (st : state) : state :=
  let address := trim box in
  if str_eqb address [] then setError msg_no_address st
  else
    let st := setError [] st in
    if invoke st then await_invoke (start_ping address) AwaitStart st
    else setError msg_no_invoke st.

(** [startPing], when [start_ping] settles, up to [await fetchLogs()]. *)
Definition startPing_settled (r : response) (st : state) : state :=
  match r with
  | Resolved baseDir =>
      let st := set_logPath baseDir st in
      let st := set_logs [] st in
      let st := renderLogs st in
      let st := set_autoScroll true st in
      let st := setRunning true st in
      fetchLogs true st
  | Rejected msg => setError msg st
  end.

(** [stopPing()], up to [await invoke("stop_ping")]. *)
Definition stopPing (st : state) : state :=
  let st := setError [] st in
  if invoke st then await_invoke stop_ping AwaitStop st
  else setError msg_no_invoke st.

(** [stopPing], when [stop_ping] settles. *)
Definition stopPing_settled (r : response) (st : state) : state :=
  match r with
  | Resolved _ =>
      let st := setRunning false st in
      match pollTimer st with
      | Some h => set_pollTimer None (clearInterval h st)
      | None => st
      end
  | Rejected msg => setError msg st
  end.

(** The listener of "ping-log". *)
Definition on_ping_log (event : value) (st : state) : state :=
  let payload :=
    if truthy event && truthy (get event k_payload)
    then get event k_payload else VNull in
  if negb (truthy payload) then st
  else addLog (VObj [(k_seq, get payload k_seq); (k_line, get payload k_line)]) st.

(** The listener of [scroll] on the list, given the list's geometry: the
    view follows again when the user is back at the bottom. *)
Definition on_scroll (scrollHeight clientHeight scrollTop : float)
  (st : state) : state :=
  let distanceToBottom := (scrollHeight - clientHeight - scrollTop)%float in
  set_autoScroll (PrimFloat.leb distanceToBottom autoScrollThreshold) st.

(** ** Events *)

Inductive event : Type :=
| ClickStart (box : jsstring)     (* [startPing] is called; the address box holds [box] *)
| ClickStop                       (* [stopPing] is called *)
| PingLog (ev : value)            (* the "ping-log" listener is called with [ev] *)
| Tick (h : nat)                  (* interval [h] fires *)
| Scroll (scrollHeight clientHeight scrollTop : float)
                                  (* the user scrolls the list *)
| Settle (i : nat) (r : response) (* the [i]-th pending promise settles with [r] *).

(** The list without its [i]-th element. *)
Definition remove_nth {A : Type} (i : nat) (l : list A) : list A :=
  firstn i l ++ skipn (S i) l.

(** The rest of the function parked at [t], given how its promise
    settled. *)
Definition resume (t : task) (r : response) (st : state) : state :=
  match t with
  | AwaitStart => startPing_settled r st
  | AwaitStop => stopPing_settled r st
  | AwaitPoll from_start => fetchLogs_settled from_start r st
  end.

(** Interval [h] is set and not cleared. *)
Definition live (h : nat) (st : state) : bool :=
  existsb (fun t => fst t =? h) (timers st).

(** One event, run to completion.  [None]: the event cannot happen (no
    listener is registered when [invoke] is [null]; a cleared interval does
    not fire; only a pending promise settles). *)
Definition step (e : event) (st : state) : option state :=
  if negb (invoke st) then None
  else
    match e with
    | ClickStart box => Some (startPing box st)
    | ClickStop => Some (stopPing st)
    | PingLog ev => Some (on_ping_log ev st)
    | Tick h => if live h st then Some (fetchLogs false st) else None
    | Scroll sh ch top => Some (on_scroll sh ch top st)
    | Settle i r =>
        match nth_error (pending st) i with
        | Some t =>
            Some (resume t r (set_pending (remove_nth i (pending st)) st))
        | None => None
        end
    end.

(** The events of [evs], one after the other. *)
Fixpoint run (evs : list event) (st : state) : option state :=
  match evs with
  | [] => Some st
  | e :: rest =>
      match step e st with
      | Some st' => run rest st'
      | None => None
      end
  end.

(** No condition on the events of a run. *)
Definition any_event (e : event) : bool := true.

(** The polls whose answer has not come yet. *)
Definition is_poll (t : task) : bool :=
  match t with AwaitPoll _ => true | _ => false end.

(** How many polls are out. *)
Definition in_flight (st : state) : nat :=
  length (filter is_poll (pending st)).

(** ** Predicates of the specification *)

(** Strictly increasing [seq], neighbour by neighbour. *)
Fixpoint increasing (l : list entry) : bool :=
  match l with
  | [] => true
  | a :: rest =>
      match rest with
      | [] => true
      | b :: _ => Num.lt (seq a) (seq b) && increasing rest
      end
  end.

(** Every [seq] of [l] is below [m]. *)
Definition all_below (m : float) (l : list entry) : bool :=
  forallb (fun e => Num.lt (seq e) m) l.

(** No [seq] of [l] is NaN. *)
Definition no_nan (l : list entry) : bool :=
  forallb (fun e => negb (Num.is_nan (seq e))) l.

(** The payload the listener reads from an event. *)
Definition payload_of (ev : value) : value :=
  if truthy ev && truthy (get ev k_payload) then get ev k_payload else VNull.

(** A number proper (not NaN) as [seq], where [seq] is a number. *)
Definition proper_seq (item : value) : bool :=
  match get item k_seq with
  | VNum x => negb (Num.is_nan x)
  | _ => true
  end.

(** What the backend is specified to send: pushed entries whose [seq] is a
    number proper, and windows of such entries in ascending [seq]. *)
Definition ordered_input (e : event) : bool :=
  match e with
  | PingLog ev => proper_seq (payload_of ev)
  | Settle _ (Resolved recent) =>
      increasing (normalizeEntries recent) && no_nan (normalizeEntries recent)
  | _ => true
  end.

(** [seq] grows strictly along the list: no duplicate, no inversion. *)
Definition ascending (l : list entry) : Prop :=
  forall i j a b, i < j ->
    nth_error l i = Some a -> nth_error l j = Some b ->
    Num.lt (seq a) (seq b) = true.

(** The only live interval is the one [pollTimer] names. *)
Definition no_stale_timer (st : state) : Prop :=
  timers st =
    match pollTimer st with
    | Some h => [(h, 1000)]
    | None => []
    end.

(** [addLog] called on each of [items] in turn. *)
Definition appends (items : list value) (st : state) : state :=
  fold_left (fun s item => addLog item s) items st.

(** The entry with [seq] [n] and an empty [line]. *)
Definition numbered (n : nat) : entry := mkEntry (Num.of_nat n) [].

(** The window of the [k] entries numbered [n], [n+1], ... *)
Definition window (n k : nat) : list entry := map numbered (List.seq n k).



(** The buffer after a push that passes both tests of [addLog]. *)
Definition pushed (l : list entry) (e : entry) : list entry :=
  if maxLogs <? length (l ++ [e]) then tl (l ++ [e]) else l ++ [e].

(** [addLog] lets [e] in: the buffer is empty or its last [seq] is not
    [>= seq e]. *)
Definition lets_in (l : list entry) (e : entry) : Prop :=
  l = [] \/ Num.ge (seq (last l e)) (seq e) = false.

(** In ascending [seq], and no [seq] is NaN. *)
Definition sorted (l : list entry) : bool := increasing l && no_nan l.

(** Whether the buffer holds an entry with [seq] equal to [x]. *)
Definition holds (x : float) (l : list entry) : bool :=
  existsb (fun e => PrimFloat.eqb (seq e) x) l.

(** The state in which the first poll of a start is answered: the buffer
    is empty and rendered, the view follows, the probe counts as running,
    and no interval has been set yet. *)
Definition polling_first (box : jsstring) (baseDir : value) (st : state)
  : state :=
  mkState (invoke st) true [] (pollTimer st) true [] baseDir
    (S (renders st)) (timers st) (next_timer st)
    (invoked st ++ [start_ping (trim box); get_recent_logs]) (pending st).

(** The state in which the answer to command [c] is taken, when nothing
    else happened since the click: the error line is blank and the command
    has been sent. *)
Definition sent (c : command) (st : state) : state :=
  mkState (invoke st) (running st) (logs st) (pollTimer st) (autoScroll st)
    [] (logPath st) (renders st) (timers st) (next_timer st)
    (invoked st ++ [c]) (pending st).

(** The state after a command has failed: the error line shows the reason,
    the command has been sent, and nothing else has changed. *)
Definition after_failure (c : command) (msg : jsstring) (st : state) : state :=
  mkState (invoke st) (running st) (logs st) (pollTimer st) (autoScroll st)
    msg (logPath st) (renders st) (timers st) (next_timer st)
    (invoked st ++ [c]) (pending st).

(** Nothing is outstanding but stop requests, and no interval is set: the
    probe is at rest. *)
Definition is_stop_task (t : task) : bool :=
  match t with AwaitStop => true | _ => false end.

Definition at_rest (st : state) : Prop :=
  timers st = [] /\ pollTimer st = None /\
  forallb is_stop_task (pending st) = true.

(** Kinds of events. *)
Definition no_start (e : event) : bool :=
  match e with ClickStart _ => false | _ => true end.

Definition no_tick (e : event) : bool :=
  match e with Tick _ => false | _ => true end.

Definition no_push (e : event) : bool :=
  match e with PingLog _ => false | _ => true end.

(** How many [get_recent_logs] have been sent. *)
Definition polls_sent (st : state) : nat :=
  length (filter (fun c => match c with get_recent_logs => true | _ => false end)
            (invoked st)).

(** A state whose interval 1 is the live one, after a click on stop that the
    backend accepts. *)
Definition after_stop (st : state) : state :=
  set_pollTimer None
    (clearInterval 1 (setRunning false (sent stop_ping st))).

(** ** The page around the log *)

(** The same functions with what they write to the page: the list, the
    placeholder, the scroll buttons, the controls and the status line, and
    with the two commands of the log directory.  [core] holds the state of
    the log model; the geometry of the list is read from the browser, so
    every event that reads it carries what it read.  The elements the code
    tests for ([logList], [logEmpty], the two scroll buttons,
    [changeLogDirBtn], [logPath]) are there. *)
Module Page.

Local Abbreviation core_renderLogs := renderLogs.
Local Abbreviation core_setRunning := setRunning.
Local Abbreviation core_startPing := startPing.
Local Abbreviation core_stopPing := stopPing.
Local Abbreviation core_fetchLogs := fetchLogs.

(** What the code reads of [logList] during one event. *)
Record reads : Type := mkReads {
  prevScrollTop : float;   (* [scrollTop] when [renderLogs] starts *)
  scrollHeight  : float;
  clientHeight  : float;
  scrollTop     : float    (* [scrollTop] when the scroll buttons are set *)
}.

(** An item of the list.  [item.value = entry.seq] goes through the
    [value] of an [li], a 32-bit integer; [item.textContent = entry.line]
    is the string as it is. *)
Record li : Type := mkLi {
  li_value : Z;
  li_textContent : jsstring
}.

(** The [li] that [renderLogs] makes of an entry. *)
Definition li_of (e : entry) : li := mkLi (Num.ToInt32 (seq e)) (line e).

(** The list and its buttons. *)
Record list_view : Type := mkListView {
  shown                  : list li;     (* the [li] of [logList], in order *)
  logEmpty_hidden        : bool;
  scrollTop_given        : float;       (* last value given to [scrollTop] *)
  scrollTopBtn_hidden    : bool;
  scrollBottomBtn_hidden : bool
}.

(** What [setRunning] writes. *)
Record controls : Type := mkControls {
  startBtn_disabled        : bool;
  stopBtn_disabled         : bool;
  addressInput_disabled    : bool;
  changeLogDirBtn_disabled : bool;
  statusText               : jsstring;
  body_running             : bool       (* [dataset.running] is "true" *)
}.

Inductive dir_command : Type := get_log_dir | select_log_dir.

Inductive dir_task : Type := AwaitGetLogDir | AwaitSelectLogDir.

Record page : Type := mkPage {
  core        : state;
  view        : list_view;
  ctl         : controls;
  address     : jsstring;               (* [addressInput.value] *)
  dir_invoked : list dir_command;
  dir_pending : list dir_task
}.

Definition with_core (c : state) (p : page) : page :=
  mkPage c (view p) (ctl p) (address p) (dir_invoked p) (dir_pending p).

Definition with_view (v : list_view) (p : page) : page :=
  mkPage (core p) v (ctl p) (address p) (dir_invoked p) (dir_pending p).

Definition with_ctl (c : controls) (p : page) : page :=
  mkPage (core p) (view p) c (address p) (dir_invoked p) (dir_pending p).

(** A function that touches the module's variables only. *)
Definition lift (f : state -> state) (p : page) : page :=
  with_core (f (core p)) p.

(** The texts of the status line, "空闲" and "运行中：". *)
Definition idle_text : jsstring := [31354; 38386]%N.

Definition running_text : jsstring := [36816; 34892; 20013; 65306]%N.

(** [updateScrollButtons()] *)
Definition updateScrollButtons (rd : reads) (v : list_view) : list_view :=
  let distanceToBottom :=
    (scrollHeight rd - clientHeight rd - scrollTop rd)%float in
  let atTop := PrimFloat.leb (scrollTop rd) autoScrollThreshold in
  let atBottom := PrimFloat.leb distanceToBottom autoScrollThreshold in
  if atTop then
    mkListView (shown v) (logEmpty_hidden v) (scrollTop_given v) true false
  else if atBottom then
    mkListView (shown v) (logEmpty_hidden v) (scrollTop_given v) false true
  else
    mkListView (shown v) (logEmpty_hidden v) (scrollTop_given v) false false.

(** [renderLogs()] *)
Definition renderLogs (rd : reads) (p : page) : page :=
  let p := lift core_renderLogs p in
  let v := view p in
  if length (logs (core p)) =? 0 then
    with_view
      (mkListView [] false (scrollTop_given v)
         (scrollTopBtn_hidden v) (scrollBottomBtn_hidden v)) p
  else
    let top :=
      if autoScroll (core p)
      then (scrollHeight rd - clientHeight rd)%float
      else prevScrollTop rd in
    with_view
      (updateScrollButtons rd
         (mkListView (map li_of (logs (core p))) true top
            (scrollTopBtn_hidden v) (scrollBottomBtn_hidden v))) p.

(** [addLog(entry)] *)
Definition addLog (rd : reads) (item : value) (p : page) : page :=
  match as_entry item with
  | None => p
  | Some e =>
      if (0 <? length (logs (core p)))
         && Num.ge (seq (last (logs (core p)) e)) (seq e)
      then p
      else
        let appended := logs (core p) ++ [e] in
        let kept :=
          if maxLogs <? length appended then tl appended else appended in
        renderLogs rd (lift (set_logs kept) p)
  end.

(** [fetchLogs], from the value of the [await] to the end of the [try]
    block. *)
Definition apply_recent (rd : reads) (recent : value) (p : page) : page :=
  let entries := normalizeEntries recent in
  if (length entries =? 0) && truthy recent && isArray recent
     && (0 <? array_length recent)
  then p
  else if (length entries =? 0) && (length (logs (core p)) =? 0)
  then renderLogs rd p
  else
    let sliced := firstn maxLogs entries in
    if logsEqual (logs (core p)) sliced then p
    else renderLogs rd (lift (set_logs sliced) p).

(** [fetchLogs], when its [invoke] settles. *)
Definition fetchLogs_settled (rd : reads) (from_start : bool) (r : response)
  (p : page) : page :=
  lift (after_fetch from_start)
    match r with
    | Resolved recent => apply_recent rd recent p
    | Rejected _ => p
    end.

(** [setRunning(next)] *)
Definition setRunning (next : bool) (p : page) : page :=
  let p := lift (core_setRunning next) p in
  with_ctl
    (mkControls next (negb next) next next
       (if next then running_text ++ trim (address p) else idle_text)
       next) p.

(** [startPing()], up to the [await]. *)
Definition startPing (p : page) : page :=
  lift (core_startPing (address p)) p.

(** [startPing], when [start_ping] settles, up to [await fetchLogs()]. *)
Definition startPing_settled (rd : reads) (r : response) (p : page) : page :=
  match r with
  | Resolved baseDir =>
      let p := lift (set_logPath baseDir) p in
      let p := lift (set_logs []) p in
      let p := renderLogs rd p in
      let p := lift (set_autoScroll true) p in
      let p := setRunning true p in
      lift (core_fetchLogs true) p
  | Rejected msg => lift (setError msg) p
  end.

(** [stopPing()], up to the [await]. *)
Definition stopPing (p : page) : page := lift core_stopPing p.

(** [stopPing], when [stop_ping] settles. *)
Definition stopPing_settled (r : response) (p : page) : page :=
  match r with
  | Resolved _ =>
      let p := setRunning false p in
      match pollTimer (core p) with
      | Some h => lift (fun c => set_pollTimer None (clearInterval h c)) p
      | None => p
      end
  | Rejected msg => lift (setError msg) p
  end.

(** The listener of "ping-log". *)
Definition on_ping_log (rd : reads) (event : value) (p : page) : page :=
  let payload :=
    if truthy event && truthy (get event k_payload)
    then get event k_payload else VNull in
  if negb (truthy payload) then p
  else
    addLog rd (VObj [(k_seq, get payload k_seq); (k_line, get payload k_line)])
      p.

(** The listener of [scroll] on the list. *)
Definition on_scroll (rd : reads) (p : page) : page :=
  let distanceToBottom :=
    (scrollHeight rd - clientHeight rd - scrollTop rd)%float in
  let p :=
    lift (set_autoScroll (PrimFloat.leb distanceToBottom autoScrollThreshold))
      p in
  with_view (updateScrollButtons rd (view p)) p.

(** The clicks on the two scroll buttons. *)
Definition scroll_to_top (rd : reads) (p : page) : page :=
  let v := view p in
  with_view
    (updateScrollButtons rd
       (mkListView (shown v) (logEmpty_hidden v) 0
          (scrollTopBtn_hidden v) (scrollBottomBtn_hidden v))) p.

Definition scroll_to_bottom (rd : reads) (p : page) : page :=
  let v := view p in
  with_view
    (updateScrollButtons rd
       (mkListView (shown v) (logEmpty_hidden v)
          (scrollHeight rd - clientHeight rd)%float
          (scrollTopBtn_hidden v) (scrollBottomBtn_hidden v))) p.

(** [await invoke(c)] for the commands of the log directory. *)
Definition await_dir (c : dir_command) (k : dir_task) (p : page) : page :=
  mkPage (core p) (view p) (ctl p) (address p)
    (dir_invoked p ++ [c]) (dir_pending p ++ [k]).

(** [refreshLogDir()], up to the [await]. *)
Definition refreshLogDir (p : page) : page :=
  if negb (invoke (core p)) then p
  else await_dir get_log_dir AwaitGetLogDir p.

(** [changeLogDir()], up to the [await]. *)
Definition changeLogDir (p : page) : page :=
  if negb (invoke (core p)) || running (core p) then p
  else await_dir select_log_dir AwaitSelectLogDir (lift (setError []) p).

(** Both, when the command settles: only a string is shown as the path. *)
Definition logDir_settled (r : response) (p : page) : page :=
  match r with
  | Resolved current =>
      if jstype_eqb (typeof current) TString
      then lift (set_logPath current) p
      else p
  | Rejected msg => lift (setError msg) p
  end.

(** The listener of [keydown] on the address box. *)
Definition on_keydown (key : jsstring) (p : page) : page :=
  if str_eqb key (lit "Enter") && negb (running (core p))
  then startPing p else p.

Inductive event : Type :=
| EditAddress (text : jsstring)            (* the user edits the address box *)
| ClickStart
| KeyDown (key : jsstring)           (* a key goes down in the address box *)
| ClickStop
| ClickChangeLogDir
| PingLog (ev : value) (rd : reads)
| Tick (h : nat) 
| Scroll (rd : reads)
| ClickScrollTop (rd : reads)
| ClickScrollBottom (rd : reads)
| Settle (i : nat) (r : response) (rd : reads)
| SettleDir (i : nat) (r : response).

Definition set_address (text : jsstring) (p : page) : page :=
  mkPage (core p) (view p) (ctl p) text (dir_invoked p) (dir_pending p).

Definition set_dir_pending (ps : list dir_task) (p : page) : page :=
  mkPage (core p) (view p) (ctl p) (address p) (dir_invoked p) ps.

Definition resume (rd : reads) (t : task) (r : response) (p : page) : page :=
  match t with
  | AwaitStart => startPing_settled rd r p
  | AwaitStop => stopPing_settled r p
  | AwaitPoll from_start => fetchLogs_settled rd from_start r p
  end.

(** One event of the page, run to completion. *)
Definition step (e : event) (p : page) : option page :=
  if negb (invoke (core p)) then None
  else
    match e with
    | EditAddress text => Some (set_address text p)
    | ClickStart => Some (startPing p)
    | KeyDown key => Some (on_keydown key p)
    | ClickStop => Some (stopPing p)
    | ClickChangeLogDir => Some (changeLogDir p)
    | PingLog ev rd => Some (on_ping_log rd ev p)
    | Tick h =>
        if live h (core p) then Some (lift (core_fetchLogs false) p) else None
    | Scroll rd => Some (on_scroll rd p)
    | ClickScrollTop rd => Some (scroll_to_top rd p)
    | ClickScrollBottom rd => Some (scroll_to_bottom rd p)
    | Settle i r rd =>
        match nth_error (pending (core p)) i with
        | Some t =>
            Some (resume rd t r
                    (lift (set_pending (remove_nth i (pending (core p)))) p))
        | None => None
        end
    | SettleDir i r =>
        match nth_error (dir_pending p) i with
        | Some _ =>
            Some (logDir_settled r
                    (set_dir_pending (remove_nth i (dir_pending p)) p))
        | None => None
        end
    end.

Fixpoint run (evs : list event) (p : page) : option page :=
  match evs with
  | [] => Some p
  | e :: rest =>
      match step e p with
      | Some p' => run rest p'
      | None => None
      end
  end.

(** The page when the script has run, over the page as the document gives
    it: [dataset.running] is set to "false" and [refreshLogDir()] is on its
    way. *)
Definition loaded (v : list_view) (c : controls) (addr : jsstring) : page :=
  refreshLogDir
    (mkPage init v
       (mkControls (startBtn_disabled c) (stopBtn_disabled c)
          (addressInput_disabled c) (changeLogDirBtn_disabled c)
          (statusText c) false)
       addr [] []).

End Page.

(** The event of the log model that an event of the page is, if it is one:
    typing, the scroll buttons and the log directory are not. *)
Definition as_log_event (p : Page.page) (e : Page.event) : option event :=
  match e with
  | Page.ClickStart => Some (ClickStart (Page.address p))
  | Page.KeyDown key =>
      if str_eqb key (lit "Enter") && negb (running (Page.core p))
      then Some (ClickStart (Page.address p)) else None
  | Page.ClickStop => Some ClickStop
  | Page.PingLog ev _ => Some (PingLog ev)
  | Page.Tick h => Some (Tick h)
  | Page.Scroll rd =>
      Some (Scroll (Page.scrollHeight rd) (Page.clientHeight rd)
              (Page.scrollTop rd))
  | Page.Settle i r _ => Some (Settle i r)
  | Page.EditAddress _ | Page.ClickChangeLogDir
  | Page.ClickScrollTop _ | Page.ClickScrollBottom _
  | Page.SettleDir _ _ => None
  end.

(** The module's variables and the traces of the log model agree, but for
    the error line and the path shown. *)
Definition same_log_state (c c' : state) : Prop :=
  set_logPath VUndefined (set_errorText [] c')
  = set_logPath VUndefined (set_errorText [] c).

(** The page shows the buffer: one [li] for each entry, in order. *)
Definition shows_buffer (p : Page.page) : Prop :=
  Page.shown (Page.view p) = map Page.li_of (logs (Page.core p)) /\
  Page.logEmpty_hidden (Page.view p)
  = negb (length (logs (Page.core p)) =? 0).

(** The controls follow [running]. *)
Definition controls_follow (p : Page.page) : Prop :=
  Page.startBtn_disabled (Page.ctl p) = running (Page.core p) /\
  Page.stopBtn_disabled (Page.ctl p) = negb (running (Page.core p)) /\
  Page.addressInput_disabled (Page.ctl p) = running (Page.core p) /\
  Page.changeLogDirBtn_disabled (Page.ctl p) = running (Page.core p) /\
  Page.body_running (Page.ctl p) = running (Page.core p) /\
  (running (Page.core p) = false ->
   Page.statusText (Page.ctl p) = Page.idle_text).

(** One of the two scroll buttons can be seen. *)
Definition a_scroll_button_shows (p : Page.page) : Prop :=
  Page.scrollTopBtn_hidden (Page.view p)
  && Page.scrollBottomBtn_hidden (Page.view p) = false.

(** A function on the module's variables that leaves [running] and the
    buffer alone. *)
Definition keeps (f : state -> state) : Prop :=
  forall c, running (f c) = running c /\ logs (f c) = logs c.

(** ** The panel of the alerts

    The form of the mail server, the test mail and the export.  The
    conversions of ECMAScript that the code calls, [Number(text)] and
    [String(value)], are parameters of the functions that call them.  An
    element that the page may lack ([smtpHost ? ... : ""]) is an option; the
    status line and the two buttons are there. *)

Module Alert.

Local Abbreviation core_response := response.

Record form : Type := mkForm {
  smtpHost : option jsstring;
  smtpPort : option jsstring;
  smtpUser : option jsstring;
  smtpPass : option jsstring;
  smtpFrom : option jsstring;
  smtpTo : option jsstring;
  smtpTlsMode : option jsstring
}.

(** The object [collectSmtpSettings] returns. *)
Record smtp : Type := mkSmtp {
  host : jsstring;
  port : float;
  username : jsstring;
  password : jsstring;
  from : jsstring;
  to : jsstring;
  tls_mode : jsstring;
  use_tls : bool
}.

(** [Number.isFinite] on a number. *)
Definition isFinite (x : float) : bool := PrimFloat.is_finite x.

Definition value_or (d : jsstring) (box : option jsstring) : jsstring :=
  match box with Some s => s | None => d end.

Definition trimmed (box : option jsstring) : jsstring :=
  match box with Some s => trim s | None => [] end.

Definition collectSmtpSettings (Number : jsstring -> float) (f : form)
  : smtp :=
  let tlsMode := value_or (lit "ssl") (smtpTlsMode f) in
  let portValue :=
    match smtpPort f with Some s => Number s | None => 0%float end in
  let fallbackPort :=
    if str_eqb tlsMode (lit "starttls") then 587%float else 465%float in
  mkSmtp (trimmed (smtpHost f))
    (if isFinite portValue && PrimFloat.ltb 0 portValue
     then portValue else fallbackPort)
    (trimmed (smtpUser f))
    (value_or [] (smtpPass f))
    (trimmed (smtpFrom f))
    (trimmed (smtpTo f))
    tlsMode
    false.

Definition set_smtpPort (text : jsstring) (f : form) : form :=
  mkForm (smtpHost f) (Some text) (smtpUser f) (smtpPass f) (smtpFrom f)
    (smtpTo f) (smtpTlsMode f).

(** The listener of [change] on the choice of the TLS mode; it is there
    when both the choice and the port box are. *)
Definition on_tls_change (f : form) : form :=
  match smtpTlsMode f, smtpPort f with
  | Some mode, Some box =>
      let current := trim box in
      let nextPort :=
        if str_eqb mode (lit "starttls") then lit "587" else lit "465" in
      let shouldUpdate :=
        str_eqb current [] || str_eqb current (lit "465")
        || str_eqb current (lit "587") in
      if shouldUpdate then set_smtpPort nextPort f else f
  | _, _ => f
  end.

(** The second argument of [setSmtpStatus] at its calls: none (the empty
    string), "success" or "error". *)
Inductive kind : Type := Plain | Success | Error.

Definition class_of (k : kind) : option jsstring :=
  match k with
  | Plain => None
  | Success => Some (lit "success")
  | Error => Some (lit "error")
  end.

(** [classList.remove] and [classList.add] of one class. *)
Definition class_remove (c : jsstring) (l : list jsstring) : list jsstring :=
  filter (fun d => negb (str_eqb d c)) l.

Definition class_add (c : jsstring) (l : list jsstring) : list jsstring :=
  if existsb (str_eqb c) l then l else l ++ [c].

Inductive command : Type :=
| test_smtp (s : smtp)
| export_alert_settings.

Inductive task : Type :=
| AwaitTest
| AwaitExport.

Record panel : Type := mkPanel {
  invoke : bool;
  fields : form;
  sendingTest : bool;
  testSmtpBtn_disabled : bool;
  testSmtpBtn_text : jsstring;
  saveSmtpBtn_disabled : bool;
  smtpStatus_text : jsstring;
  smtpStatus_classes : list jsstring;
  invoked : list command;
  pending : list task
}.

Definition sending_text : jsstring := [21457; 36865; 20013; 46; 46; 46]%N.
Definition send_test_text : jsstring :=
  [21457; 36865; 27979; 35797; 37038; 20214]%N.
Definition sending_status : jsstring := [21457; 36865; 20013; 8230]%N.
Definition sent_status : jsstring := [21457; 36865; 25104; 21151; 12290]%N.
Definition exporting_status : jsstring := [23548; 20986; 20013; 8230]%N.
Definition export_cancelled_status : jsstring :=
  [24050; 21462; 28040; 23548; 20986; 12290]%N.
Definition exported_to : jsstring :=
  [24050; 23548; 20986; 21040; 58; 32]%N.

Definition setSmtpStatus (message : jsstring) (k : kind) (a : panel)
  : panel :=
  let classes :=
    class_remove (lit "error")
      (class_remove (lit "success") (smtpStatus_classes a)) in
  mkPanel (invoke a) (fields a) (sendingTest a) (testSmtpBtn_disabled a)
    (testSmtpBtn_text a) (saveSmtpBtn_disabled a)
    message
    (match class_of k with Some c => class_add c classes | None => classes end)
    (invoked a) (pending a).

Definition setTestSending (next : bool) (a : panel) : panel :=
  mkPanel (invoke a) (fields a) next next
    (if next then sending_text else send_test_text) next
    (smtpStatus_text a) (smtpStatus_classes a) (invoked a) (pending a).

Definition set_fields (f : form) (a : panel) : panel :=
  mkPanel (invoke a) f (sendingTest a) (testSmtpBtn_disabled a)
    (testSmtpBtn_text a) (saveSmtpBtn_disabled a) (smtpStatus_text a)
    (smtpStatus_classes a) (invoked a) (pending a).

Definition set_pending (ts : list task) (a : panel) : panel :=
  mkPanel (invoke a) (fields a) (sendingTest a) (testSmtpBtn_disabled a)
    (testSmtpBtn_text a) (saveSmtpBtn_disabled a) (smtpStatus_text a)
    (smtpStatus_classes a) (invoked a) ts.

(** [await invoke(c)]. *)
Definition await_invoke (c : command) (k : task) (a : panel) : panel :=
  mkPanel (invoke a) (fields a) (sendingTest a) (testSmtpBtn_disabled a)
    (testSmtpBtn_text a) (saveSmtpBtn_disabled a) (smtpStatus_text a)
    (smtpStatus_classes a) (invoked a ++ [c]) (pending a ++ [k]).

(** [testSmtp()], up to the [await]. *)
Definition testSmtp (Number : jsstring -> float) (a : panel) : panel :=
  if negb (invoke a) then a
  else if sendingTest a then a
  else
    let smtp := collectSmtpSettings Number (fields a) in
    let a := setTestSending true a in
    let a := setSmtpStatus sending_status Plain a in
    await_invoke (test_smtp smtp) AwaitTest a.

(** [testSmtp], when [test_smtp] settles. *)
Definition testSmtp_settled (String : value -> jsstring) (r : core_response)
  (a : panel) : panel :=
  let a :=
    match r with
    | Resolved result =>
        setSmtpStatus
          (if truthy result then String result else sent_status) Success a
    | Rejected msg => setSmtpStatus msg Error a
    end in
  setTestSending false a.

(** [exportAlertSettings()], up to the [await]. *)
Definition exportAlertSettings (a : panel) : panel :=
  if negb (invoke a) then a
  else
    await_invoke export_alert_settings AwaitExport
      (setSmtpStatus exporting_status Plain a).

(** [exportAlertSettings], when [export_alert_settings] settles. *)
Definition exportAlertSettings_settled (String : value -> jsstring)
  (r : core_response) (a : panel) : panel :=
  match r with
  | Resolved result =>
      if negb (truthy result)
      then setSmtpStatus export_cancelled_status Plain a
      else setSmtpStatus (exported_to ++ String result) Success a
  | Rejected msg => setSmtpStatus msg Error a
  end.

Inductive event : Type :=
| Edit (f : form)                         (* the user fills the form in *)
| ChangeTls (mode : jsstring)        (* the user chooses another TLS mode *)
| ClickTest
| ClickExport
| Settle (i : nat) (r : core_response).

Definition set_tls (mode : jsstring) (f : form) : form :=
  mkForm (smtpHost f) (smtpPort f) (smtpUser f) (smtpPass f) (smtpFrom f)
    (smtpTo f) (Some mode).

Definition resume (String : value -> jsstring) (t : task)
  (r : core_response) (a : panel) : panel :=
  match t with
  | AwaitTest => testSmtp_settled String r a
  | AwaitExport => exportAlertSettings_settled String r a
  end.

(** One event of the panel, run to completion.  Without [invoke] no
    listener is there; the choice of a TLS mode needs the choice. *)
Definition step (Number : jsstring -> float) (String : value -> jsstring)
  (e : event) (a : panel) : option panel :=
  if negb (invoke a) then None
  else
    match e with
    | Edit f => Some (set_fields f a)
    | ChangeTls mode =>
        match smtpTlsMode (fields a) with
        | Some _ =>
            Some (set_fields (on_tls_change (set_tls mode (fields a))) a)
        | None => None
        end
    | ClickTest => Some (testSmtp Number a)
    | ClickExport => Some (exportAlertSettings a)
    | Settle i r =>
        match nth_error (pending a) i with
        | Some t =>
            Some (resume String t r
                    (set_pending (remove_nth i (pending a)) a))
        | None => None
        end
    end.

Fixpoint run (Number : jsstring -> float) (String : value -> jsstring)
  (evs : list event) (a : panel) : option panel :=
  match evs with
  | [] => Some a
  | e :: rest =>
      match step Number String e a with
      | Some a' => run Number String rest a'
      | None => None
      end
  end.

End Alert.

(** The number of test mails on their way. *)
Definition tests_in_flight (a : Alert.panel) : nat :=
  length (filter (fun t => match t with Alert.AwaitTest => true
                                   | Alert.AwaitExport => false end)
            (Alert.pending a)).

(** No test mail is on its way and the two buttons can be used. *)
Definition quiet (a : Alert.panel) : Prop :=
  Alert.sendingTest a = false /\
  tests_in_flight a = 0 /\
  Alert.testSmtpBtn_disabled a = false /\
  Alert.saveSmtpBtn_disabled a = false.

(** The [test_smtp] commands among [l]. *)
Definition tests_sent (l : list Alert.command) : list Alert.smtp :=
  flat_map (fun c => match c with Alert.test_smtp s => [s]
                             | Alert.export_alert_settings => [] end) l.

(** The port can be given to a mail server's address: a finite number
    above zero. *)
Definition usable_port (x : float) : bool :=
  Alert.isFinite x && PrimFloat.ltb 0 x.

(** The status line is marked as both a success and an error. *)
Definition marked_both (classes : list jsstring) : bool :=
  existsb (str_eqb (lit "success")) classes
  && existsb (str_eqb (lit "error")) classes.

(** The port box holds nothing, or one of the two ports the code knows. *)
Definition default_or_blank (box : jsstring) : bool :=
  str_eqb (trim box) [] || str_eqb (trim box) (lit "465")
  || str_eqb (trim box) (lit "587").

(** What the events keep of the test mail. *)
Definition single_flight (a : Alert.panel) : Prop :=
  tests_in_flight a = (if Alert.sendingTest a then 1 else 0) /\
  Alert.testSmtpBtn_disabled a = Alert.sendingTest a /\
  Alert.saveSmtpBtn_disabled a = Alert.sendingTest a.


(** ** Running examples *)

(** A "ping-log" event that carries [{ seq: x, line: l }]. *)
Definition push (x : float) (l : string) : event :=
  PingLog (VObj [(k_payload, obj_of_entry (mkEntry x (lit l)))]).

(** The array a poll answers with, for the entries [l]. *)
Definition snapshot (l : list entry) : value := VArr (map obj_of_entry l).

(** A run that mixes both channels: a start, pushes that arrive before,
    between and after polls, a duplicate and a late push. *)
Definition mixed_run : list event :=
  [ ClickStart (lit "example.org");
    Settle 0 (Resolved (VStr (lit "/var/log/ping")));
    push 1 "a";
    Settle 0 (Resolved (snapshot (window 1 2)));
    push 3 "c"; push 3 "c"; push 2 "b";
    Scroll 400 100 20;
    Tick 1;
    push 4 "d";
    Settle 0 (Resolved (snapshot (window 1 5))) ].

(** A probe has been started and its first poll is still out. *)
Definition started : list event :=
  [ ClickStart (lit "example.org");
    Settle 0 (Resolved (VStr (lit "/var/log/ping"))) ].

(** Two entries. *)
Definition entry_a : entry := mkEntry 1 (lit "a").

Definition entry_b : entry := mkEntry 2 (lit "b").

(** A probe runs: started, first poll answered, interval 1 live. *)
Definition running_probe : list event :=
  started ++ [Settle 0 (Resolved (VArr []))].

(** The state [running_probe] leads to. *)
Definition probe_state : state :=
  mkState true true [] (Some 1) true [] (VStr (lit "/var/log/ping")) 2
    [(1, 1000)] 2 [start_ping (lit "example.org"); get_recent_logs] [].

(** The page as a document may give it, loaded. *)
Definition page_loaded : Page.page :=
  Page.loaded (Page.mkListView [] false 0 true false)
    (Page.mkControls false true false false Page.idle_text false)
    (lit " example.org ").

(** The event of "ping-log" for one line. *)
Definition log_event (x : float) (l : string) : value :=
  VObj [(k_payload, obj_of_entry (mkEntry x (lit l)))].

Definition some_reads : Page.reads := Page.mkReads 0 400 200 200.

(** A probe is started from the page and two lines are pushed, the second
    with a [seq] that is no integer; the user scrolls up and asks in vain
    for another directory. *)
Definition page_session : list Page.event :=
  [ Page.SettleDir 0 (Resolved (VStr (lit "/var/log/ping")));
    Page.KeyDown (lit "Enter");
    Page.Settle 0 (Resolved (VStr (lit "/var/log/ping"))) some_reads;
    Page.PingLog (log_event 1 "reply 1") some_reads;
    Page.Settle 0 (Resolved (snapshot [entry_a])) some_reads;
    Page.PingLog (log_event 2.5 "reply 2") some_reads;
    Page.Scroll (Page.mkReads 0 400 200 100);
    Page.ClickChangeLogDir ].

(** A form as a user may leave it, and the panel around it. *)
Definition form_filled : Alert.form :=
  Alert.mkForm (Some (lit " smtp.example.org ")) (Some (lit " 465 "))
    (Some (lit "probe")) (Some (lit " secret ")) (Some (lit "probe@example.org"))
    (Some (lit "ops@example.org ")) (Some (lit "ssl")).

Definition panel_opened : Alert.panel :=
  Alert.mkPanel true form_filled false false Alert.send_test_text false
    [] [lit "status"] [] [].

(** The number a run of decimal digits writes. *)
Fixpoint digits_value (acc : N) (s : jsstring) : option N :=
  match s with
  | [] => Some acc
  | c :: s' =>
      if ((48 <=? c) && (c <=? 57))%N
      then digits_value (10 * acc + (c - 48))%N s'
      else None
  end.

(** [Number] on the texts the examples put in a port box: white space
    around at most fifteen decimal digits (the number they write, which is
    exact), or white space only (zero).  The examples give it no other
    text. *)
Definition number_of_port (s : jsstring) : float :=
  match trim s with
  | [] => 0%float
  | t =>
      match digits_value 0 t with
      | Some n =>
          if length t <=? 15
          then PrimFloat.of_uint63 (Uint63.of_Z (Z.of_N n))
          else PrimFloat.nan
      | None => PrimFloat.nan
      end
  end.

(** [String] on the strings the examples answer with. *)
Definition string_of_text (v : value) : jsstring :=
  match v with VStr s => s | _ => [] end.



(** The user chooses STARTTLS, asks twice for a test mail and for an
    export; the test fails and the export is written. *)
Definition panel_session : list Alert.event :=
  [ Alert.ChangeTls (lit "starttls");
    Alert.ClickTest;
    Alert.ClickTest;
    Alert.ClickExport;
    Alert.Settle 0 (Rejected (lit "timed out"));
    Alert.Settle 0 (Resolved (VStr (lit "/tmp/alerts.json"))) ].

(** * Facts *)

(** ** The order of numbers *)

Module NumFacts.

Lemma SFcompare_antisym (x y : spec_float) :
  SFcompare y x = option_map CompOpp (SFcompare x y).
Proof.
  destruct x as [s1|s1| |s1 m1 e1], y as [s2|s2| |s2 m2 e2]; simpl;
    try reflexivity;
    try (destruct s1; reflexivity); try (destruct s2; reflexivity);
    try (destruct s1, s2; reflexivity).
  destruct s1, s2; try reflexivity;
    rewrite (Z.compare_antisym e1 e2); destruct (e1 ?= e2)%Z; simpl;
    try reflexivity;
    rewrite (Pos.compare_cont_antisym m1 m2 Eq); simpl; try reflexivity.
Qed.

Lemma SFcompare_refl (x : spec_float) :
  x <> S754_nan -> SFcompare x x = Some Eq.
Proof.
  destruct x as [s|s| |s m e]; simpl; intros H; try congruence.
  - destruct s; reflexivity.
  - rewrite Z.compare_refl.
    change (Pos.compare_cont Eq m m) with (Pos.compare m m).
    rewrite Pos.compare_refl. destruct s; reflexivity.
Qed.

Lemma SFcompare_None (x y : spec_float) :
  SFcompare x y = None <-> x = S754_nan \/ y = S754_nan.
Proof.
  destruct x as [s1|s1| |s1 m1 e1], y as [s2|s2| |s2 m2 e2]; simpl;
    split; intros H;
    try discriminate; try reflexivity; try (now left); try (now right);
    destruct H; discriminate.
Qed.

Lemma SFcompare_Lt_trans (x y z : spec_float) :
  SFcompare x y = Some Lt -> SFcompare y z = Some Lt ->
  SFcompare x z = Some Lt.
Proof.
  destruct x as [s1|s1| |s1 m1 e1], y as [s2|s2| |s2 m2 e2],
           z as [s3|s3| |s3 m3 e3]; simpl;
    try discriminate;
    try (destruct s1; discriminate); try (destruct s2; discriminate);
    try (destruct s3; discriminate);
    try (destruct s1, s2; discriminate); try (destruct s2, s3; discriminate);
    try (destruct s1, s3; try discriminate; reflexivity);
    try (destruct s1, s2, s3; try discriminate; reflexivity).
  all: destruct s1, s2, s3; try discriminate; try reflexivity.
  all: change (Pos.compare_cont Eq) with Pos.compare.
  all: destruct (Z.compare_spec e1 e2), (Z.compare_spec e2 e3);
    try discriminate;
    destruct (Z.compare_spec e1 e3); try lia; try reflexivity; subst.
  all: destruct (Pos.compare_spec m1 m2), (Pos.compare_spec m2 m3);
    try discriminate;
    destruct (Pos.compare_spec m1 m3); try lia; try reflexivity.
Qed.

Lemma is_nan_spec (a : float) :
  Num.is_nan a = false <-> Prim2SF a <> S754_nan.
Proof.
  unfold Num.is_nan, PrimFloat.is_nan. rewrite eqb_spec. unfold SFeqb.
  split.
  - intros H E. rewrite E in H. discriminate.
  - intros H. now rewrite SFcompare_refl.
Qed.

Lemma lt_trans (a b c : float) :
  Num.lt a b = true -> Num.lt b c = true -> Num.lt a c = true.
Proof.
  unfold Num.lt. rewrite !ltb_spec. unfold SFltb.
  destruct (SFcompare (Prim2SF a) (Prim2SF b)) as [[]|] eqn:E1; try discriminate.
  destruct (SFcompare (Prim2SF b) (Prim2SF c)) as [[]|] eqn:E2; try discriminate.
  now rewrite (SFcompare_Lt_trans _ _ _ E1 E2).
Qed.

(** [!(a >= b)] between numbers proper is [a < b]. *)
Lemma not_ge_lt (a b : float) :
  Num.is_nan a = false -> Num.is_nan b = false ->
  Num.ge a b = false -> Num.lt a b = true.
Proof.
  rewrite !is_nan_spec. unfold Num.ge, Num.lt.
  rewrite leb_spec, ltb_spec. unfold SFleb, SFltb.
  intros Ha Hb. rewrite (SFcompare_antisym (Prim2SF a) (Prim2SF b)).
  destruct (SFcompare (Prim2SF a) (Prim2SF b)) as [[]|] eqn:E; simpl;
    try discriminate; try reflexivity.
  apply SFcompare_None in E. tauto.
Qed.

Lemma lt_strict_ne (a b : float) :
  Num.lt a b = true -> Num.strict_ne b a = true.
Proof.
  unfold Num.lt, Num.strict_ne. rewrite ltb_spec, eqb_spec.
  unfold SFltb, SFeqb. rewrite (SFcompare_antisym (Prim2SF a) (Prim2SF b)).
  destruct (SFcompare (Prim2SF a) (Prim2SF b)) as [[]|]; simpl; intros;
    congruence.
Qed.


Lemma ge_refl (a : float) : Num.is_nan a = false -> Num.ge a a = true.
Proof.
  rewrite is_nan_spec. unfold Num.ge. rewrite leb_spec. unfold SFleb.
  intros H. now rewrite SFcompare_refl.
Qed.

Lemma strict_ne_refl (a : float) :
  Num.is_nan a = false -> Num.strict_ne a a = false.
Proof.
  unfold Num.strict_ne, Num.is_nan, PrimFloat.is_nan.
  now destruct (PrimFloat.eqb a a).
Qed.

Lemma SFcompare_Eq_trans (x y z : spec_float) :
  SFcompare x y = Some Eq -> SFcompare y z = Some Eq ->
  SFcompare x z = Some Eq.
Proof.
  destruct x as [s1|s1| |s1 m1 e1], y as [s2|s2| |s2 m2 e2],
           z as [s3|s3| |s3 m3 e3]; simpl;
    try discriminate; try reflexivity;
    try (destruct s1; discriminate); try (destruct s2; discriminate);
    try (destruct s3; discriminate);
    try (destruct s1, s2; discriminate); try (destruct s2, s3; discriminate);
    try (destruct s1, s2, s3; try discriminate; reflexivity).
  all: destruct s1, s2, s3; try discriminate.
  all: change (Pos.compare_cont Eq) with Pos.compare.
  all: destruct (Z.compare_spec e1 e2), (Z.compare_spec e2 e3);
    try discriminate; subst; rewrite Z.compare_refl.
  all: destruct (Pos.compare_spec m1 m2), (Pos.compare_spec m2 m3);
    try discriminate; subst; now rewrite Pos.compare_refl.
Qed.

Lemma strict_ne_sym (a b : float) : Num.strict_ne a b = Num.strict_ne b a.
Proof.
  unfold Num.strict_ne. rewrite !eqb_spec. unfold SFeqb.
  rewrite (SFcompare_antisym (Prim2SF a) (Prim2SF b)).
  destruct (SFcompare (Prim2SF a) (Prim2SF b)) as [[]|]; reflexivity.
Qed.

Lemma strict_ne_trans (a b c : float) :
  Num.strict_ne a b = false -> Num.strict_ne b c = false ->
  Num.strict_ne a c = false.
Proof.
  unfold Num.strict_ne. rewrite !eqb_spec. unfold SFeqb.
  destruct (SFcompare (Prim2SF a) (Prim2SF b)) as [[]|] eqn:E1;
    try discriminate.
  destruct (SFcompare (Prim2SF b) (Prim2SF c)) as [[]|] eqn:E2;
    try discriminate.
  now rewrite (SFcompare_Eq_trans _ _ _ E1 E2).
Qed.

End NumFacts.

(** ** Strings and shapes *)

Lemma str_eqb_eq (s t : jsstring) : str_eqb s t = true <-> s = t.
Proof.
  revert t. induction s as [|c s IH]; intros [|d t]; simpl;
    try (split; (reflexivity || discriminate)).
  rewrite andb_true_iff, N.eqb_eq, IH. split.
  - intros [-> ->]. reflexivity.
  - intros H. injection H as -> ->. split; reflexivity.
Qed.

Lemma str_eqb_refl (s : jsstring) : str_eqb s s = true.
Proof. now apply str_eqb_eq. Qed.

Lemma trimStart_blank (s : jsstring) :
  trimStart s = [] <-> forallb isWhiteSpace s = true.
Proof.
  induction s as [|c s IH]; simpl.
  - split; reflexivity.
  - destruct (isWhiteSpace c); simpl; [exact IH|].
    split; discriminate.
Qed.

Lemma trimStart_keeps (s : jsstring) :
  forallb isWhiteSpace s = false -> forallb isWhiteSpace (trimStart s) = false.
Proof.
  induction s as [|c s IH]; simpl; [discriminate|].
  destruct (isWhiteSpace c) eqn:E; simpl; [exact IH|].
  intros _. now rewrite E.
Qed.

Lemma forallb_rev {A : Type} (f : A -> bool) (l : list A) :
  forallb f (rev l) = forallb f l.
Proof.
  induction l as [|a l IH]; simpl; [reflexivity|].
  rewrite forallb_app, IH. simpl. rewrite andb_true_r. apply andb_comm.
Qed.

(** [trim] leaves nothing exactly of the strings made of white space. *)
Lemma trim_blank (s : jsstring) :
  trim s = [] <-> forallb isWhiteSpace s = true.
Proof.
  unfold trim, trimEnd. split.
  - intros H.
    destruct (forallb isWhiteSpace s) eqn:E; [reflexivity|].
    apply trimStart_keeps in E.
    assert (R : trimStart (rev (trimStart s)) = []).
    { apply (f_equal (@rev N)) in H. now rewrite rev_involutive in H. }
    apply trimStart_blank in R. rewrite forallb_rev in R. congruence.
  - intros H. apply trimStart_blank in H. rewrite H. reflexivity.
Qed.

Lemma as_entry_Some (item : value) (e : entry) :
  as_entry item = Some e ->
  truthy item = true /\
  get item k_seq = VNum (seq e) /\ get item k_line = VStr (line e).
Proof.
  unfold as_entry, well_shaped.
  destruct (truthy item); simpl; [|discriminate].
  destruct (get item k_seq); simpl; try discriminate.
  destruct (get item k_line); simpl; try discriminate.
  intros H. injection H as <-. auto.
Qed.

Lemma as_entry_None (item : value) :
  as_entry item = None <-> well_shaped item = false.
Proof.
  unfold as_entry, well_shaped.
  destruct (truthy item); simpl; [|tauto].
  destruct (get item k_seq); simpl; try tauto.
  destruct (get item k_line); simpl; try tauto.
  split; discriminate.
Qed.

Lemma as_entry_obj (e : entry) : as_entry (obj_of_entry e) = Some e.
Proof. destruct e. reflexivity. Qed.

Lemma collect_obj (l : list entry) : collect (map obj_of_entry l) = l.
Proof.
  induction l as [|e l IH]; [reflexivity|].
  cbn [map collect]. rewrite as_entry_obj, IH. reflexivity.
Qed.

(** The object the listener builds has the payload's two fields. *)
Lemma as_entry_pair (a b : value) (e : entry) :
  as_entry (VObj [(k_seq, a); (k_line, b)]) = Some e ->
  a = VNum (seq e) /\ b = VStr (line e).
Proof.
  intros H. apply as_entry_Some in H. destruct H as (_ & H1 & H2).
  split; [exact H1 | exact H2].
Qed.

Lemma collect_In (items : list value) (e : entry) :
  In e (collect items) -> exists item, In item items /\ as_entry item = Some e.
Proof.
  induction items as [|item items IH]; simpl; [tauto|].
  destruct (as_entry item) eqn:E.
  - intros [<-|H]; [exists item; auto|].
    destruct (IH H) as (i & Hi & Ei). exists i. auto.
  - intros H. destruct (IH H) as (i & Hi & Ei). exists i. auto.
Qed.

(** ** Ordered lists of entries *)

Lemma increasing_cons (a : entry) (l : list entry) :
  increasing (a :: l) = true -> increasing l = true.
Proof.
  simpl. destruct l; [reflexivity|]. now intros [_ H]%andb_true_iff.
Qed.

Lemma increasing_tl (l : list entry) :
  increasing l = true -> increasing (tl l) = true.
Proof. destruct l; [reflexivity|]. apply increasing_cons. Qed.

Lemma increasing_firstn (n : nat) (l : list entry) :
  increasing l = true -> increasing (firstn n l) = true.
Proof.
  revert l. induction n as [|n IH]; intros [|a l]; try reflexivity.
  intros H. rewrite firstn_cons.
  assert (Hl := IH l (increasing_cons _ _ H)).
  destruct l as [|b l], n; try reflexivity.
  simpl in H |- *. apply andb_true_iff in H. destruct H as [H _].
  rewrite H. exact Hl.
Qed.


Lemma increasing_snoc (l : list entry) (e : entry) :
  increasing l = true ->
  (l <> [] -> Num.lt (seq (last l e)) (seq e) = true) ->
  increasing (l ++ [e]) = true.
Proof.
  induction l as [|a l IH]; [reflexivity|].
  intros H Hlast. assert (Hl := increasing_cons _ _ H).
  destruct l as [|b l].
  - simpl in *. rewrite Hlast by discriminate. reflexivity.
  - change (Num.lt (seq a) (seq b) && increasing ((b :: l) ++ [e]) = true).
    simpl in H. apply andb_true_iff in H. destruct H as [H _]. rewrite H.
    apply IH; [exact Hl|]. intros _. apply Hlast. discriminate.
Qed.

(** Neighbour by neighbour is pair by pair: no duplicate, no inversion. *)
Lemma increasing_head (a : entry) (l : list entry) :
  increasing (a :: l) = true ->
  forall b, In b l -> Num.lt (seq a) (seq b) = true.
Proof.
  revert a. induction l as [|c l IH]; intros a H b; [contradiction|].
  simpl in H. apply andb_true_iff in H. destruct H as [Hac Hl].
  intros [<-|Hb]; [exact Hac|].
  apply NumFacts.lt_trans with (seq c); [exact Hac|]. now apply IH.
Qed.

Lemma increasing_ascending (l : list entry) :
  increasing l = true -> ascending l.
Proof.
  induction l as [|c l IH]; intros H i j a b Hij Ha Hb.
  - destruct i; discriminate.
  - destruct j as [|j]; [lia|]. simpl in Hb.
    destruct i as [|i].
    + injection Ha as <-. apply increasing_head with l; [exact H|].
      now apply nth_error_In with j.
    + simpl in Ha. apply (IH (increasing_cons _ _ H) i j); (lia || assumption).
Qed.

Lemma no_nan_firstn (n : nat) (l : list entry) :
  no_nan l = true -> no_nan (firstn n l) = true.
Proof.
  unfold no_nan. rewrite !forallb_forall. intros H e He.
  apply H. rewrite <- (firstn_skipn n l). apply in_or_app. now left.
Qed.

Lemma no_nan_tl (l : list entry) : no_nan l = true -> no_nan (tl l) = true.
Proof. destruct l; [reflexivity|]. simpl. now intros [_ H]%andb_true_iff. Qed.

Lemma no_nan_last (l : list entry) (d : entry) :
  no_nan l = true -> l <> [] -> Num.is_nan (seq (last l d)) = false.
Proof.
  unfold no_nan. rewrite forallb_forall. intros H Hne.
  destruct (exists_last Hne) as (l' & a & ->). rewrite last_last.
  apply negb_true_iff, H, in_or_app. right. now left.
Qed.

(** ** [logsEqual] *)

Lemma logsEqual_refl (l : list entry) :
  no_nan l = true -> logsEqual l l = true.
Proof.
  unfold logsEqual. rewrite Nat.eqb_refl. simpl.
  induction l as [|a l IH]; simpl; [reflexivity|].
  intros [Ha Hl]%andb_true_iff. rewrite (IH Hl), andb_true_r.
  unfold same_entry. simpl. rewrite str_eqb_refl.
  rewrite NumFacts.strict_ne_refl; [reflexivity|]. now apply negb_true_iff.
Qed.

(** ** What each function does to [logs] *)

Lemma addLog_cases (item : value) (st : state) :
  addLog item st = st \/
  exists e, as_entry item = Some e /\ lets_in (logs st) e /\
            addLog item st = renderLogs (set_logs (pushed (logs st) e) st).
Proof.
  unfold addLog, lets_in, pushed.
  destruct (as_entry item) as [e|]; [|now left].
  destruct (logs st) as [|a l].
  - right. exists e. repeat split. now left.
  - destruct (Num.ge (seq (last (a :: l) e)) (seq e)) eqn:G.
    + left. reflexivity.
    + right. exists e. repeat split. now right.
Qed.

Lemma on_ping_log_cases (ev : value) (st : state) :
  on_ping_log ev st = st \/
  exists e, truthy (payload_of ev) = true /\
            get (payload_of ev) k_seq = VNum (seq e) /\
            get (payload_of ev) k_line = VStr (line e) /\
            lets_in (logs st) e /\
            on_ping_log ev st = renderLogs (set_logs (pushed (logs st) e) st).
Proof.
  unfold on_ping_log. fold (payload_of ev).
  destruct (truthy (payload_of ev)) eqn:T; simpl; [|now left].
  destruct (addLog_cases
              (VObj [(k_seq, get (payload_of ev) k_seq);
                     (k_line, get (payload_of ev) k_line)]) st)
    as [H|(e & He & Hin & H)]; [now left|].
  right. exists e. apply as_entry_pair in He. destruct He as [H1 H2].
  repeat split; assumption.
Qed.

Lemma apply_recent_cases (recent : value) (st : state) :
  apply_recent recent st = st \/
  apply_recent recent st = renderLogs st \/
  (logsEqual (logs st) (firstn maxLogs (normalizeEntries recent)) = false /\
   apply_recent recent st =
     renderLogs (set_logs (firstn maxLogs (normalizeEntries recent)) st)).
Proof.
  unfold apply_recent.
  destruct ((length (normalizeEntries recent) =? 0) && truthy recent
            && isArray recent && (0 <? array_length recent)); [now left|].
  destruct ((length (normalizeEntries recent) =? 0)
            && (length (logs st) =? 0)); [right; now left|].
  destruct (logsEqual (logs st) (firstn maxLogs (normalizeEntries recent)));
    [now left|]. right. right. split; reflexivity.
Qed.

Lemma logs_apply_recent (recent : value) (st : state) :
  logs (apply_recent recent st) = logs st \/
  logs (apply_recent recent st) = firstn maxLogs (normalizeEntries recent).
Proof.
  destruct (apply_recent_cases recent st) as [->|[->|[_ ->]]]; auto.
Qed.

Lemma logs_arm_poll (st : state) : logs (arm_poll st) = logs st.
Proof. unfold arm_poll. destruct (pollTimer st); reflexivity. Qed.

Lemma logs_after_fetch (k : bool) (st : state) :
  logs (after_fetch k st) = logs st.
Proof. destruct k; [apply logs_arm_poll | reflexivity]. Qed.

Lemma logs_fetchLogs (k : bool) (st : state) : logs (fetchLogs k st) = logs st.
Proof.
  unfold fetchLogs. destruct (invoke st); simpl;
    [reflexivity | apply logs_after_fetch].
Qed.

Lemma logs_startPing (box : jsstring) (st : state) :
  logs (startPing box st) = logs st.
Proof.
  unfold startPing. destruct (str_eqb (trim box) []); [reflexivity|].
  simpl. destruct (invoke st); reflexivity.
Qed.

Lemma logs_stopPing (st : state) : logs (stopPing st) = logs st.
Proof. unfold stopPing. simpl. destruct (invoke st); reflexivity. Qed.

Lemma logs_stopPing_settled (r : response) (st : state) :
  logs (stopPing_settled r st) = logs st.
Proof. destruct r; simpl; [destruct (pollTimer st)|]; reflexivity. Qed.

Lemma logs_startPing_settled (r : response) (st : state) :
  logs (startPing_settled r st) = logs st \/ logs (startPing_settled r st) = [].
Proof.
  destruct r; simpl; [right | now left]. now rewrite logs_fetchLogs.
Qed.

(** The four things an event can do to the buffer: nothing, empty it, push
    one entry at the end, or put the head of a polled window in its place. *)
Lemma step_logs (e : event) (st st' : state) :
  step e st = Some st' ->
  logs st' = logs st \/ logs st' = [] \/
  (exists ev x, e = PingLog ev /\
     get (payload_of ev) k_seq = VNum (seq x) /\
     lets_in (logs st) x /\ logs st' = pushed (logs st) x) \/
  (exists i recent, e = Settle i (Resolved recent) /\
     logs st' = firstn maxLogs (normalizeEntries recent)).
Proof.
  unfold step. destruct (invoke st); simpl; [|discriminate].
  destruct e as [box| |ev|h|sh ch top|i r].
  - intros [= <-]. left. apply logs_startPing.
  - intros [= <-]. left. apply logs_stopPing.
  - intros [= <-].
    destruct (on_ping_log_cases ev st) as [->|(x & _ & Hs & _ & Hin & ->)];
      [now left|].
    right. right. left. exists ev, x. repeat split; assumption.
  - destruct (live h st); [|discriminate]. intros [= <-]. left.
    apply logs_fetchLogs.
  - intros [= <-]. now left.
  - destruct (nth_error (pending st) i) as [t|]; [|discriminate].
    intros [= <-]. set (st1 := set_pending _ st).
    change (logs st) with (logs st1). destruct t; simpl.
    + destruct (logs_startPing_settled r st1) as [->| ->]; auto.
    + rewrite logs_stopPing_settled. now left.
    + unfold fetchLogs_settled. rewrite logs_after_fetch.
      destruct r as [recent|msg]; [|now left].
      destruct (logs_apply_recent recent st1) as [->| ->]; [now left|].
      right. right. right. exists i, recent. split; reflexivity.
Qed.

(** ** Invariants of runs *)

Section RunInvariant.

Variable allowed : event -> bool.
Variable P : state -> Prop.

Hypothesis P_step :
  forall e st st',
    allowed e = true -> step e st = Some st' -> P st -> P st'.

(** What every allowed event keeps, every run of allowed events keeps. *)
Lemma run_invariant (evs : list event) (st st' : state) :
  run evs st = Some st' -> forallb allowed evs = true -> P st -> P st'.
Proof.
  revert st. induction evs as [|e evs IH]; simpl; intros st.
  - now intros [= <-].
  - destruct (step e st) as [st1|] eqn:E; [|discriminate].
    intros Hr [He Hevs]%andb_true_iff Hst.
    apply (IH st1 Hr Hevs). exact (P_step e st st1 He E Hst).
Qed.

End RunInvariant.

Lemma forallb_any_event (evs : list event) : forallb any_event evs = true.
Proof. induction evs; simpl; auto. Qed.

(** ** The buffer stays ordered and bounded *)

Lemma sorted_pushed (l : list entry) (x : entry) :
  sorted l = true -> Num.is_nan (seq x) = false -> lets_in l x ->
  sorted (pushed l x) = true.
Proof.
  unfold sorted. intros [Hi Hn]%andb_true_iff Hx Hin.
  assert (S : increasing (l ++ [x]) && no_nan (l ++ [x]) = true).
  { apply andb_true_iff. split.
    - apply increasing_snoc; [exact Hi|]. intros Hne.
      destruct Hin as [->|G]; [congruence|].
      apply NumFacts.not_ge_lt; [|exact Hx|exact G].
      now apply no_nan_last.
    - unfold no_nan in *. rewrite forallb_app, Hn. simpl. now rewrite Hx. }
  unfold pushed. destruct (maxLogs <? length (l ++ [x])); [|exact S].
  apply andb_true_iff in S. destruct S as [S1 S2].
  now rewrite increasing_tl, no_nan_tl.
Qed.

Lemma length_pushed (l : list entry) (x : entry) :
  length l <= maxLogs -> length (pushed l x) <= maxLogs.
Proof.
  unfold pushed. intros H.
  destruct (maxLogs <? length (l ++ [x])) eqn:E.
  - destruct l; simpl in *; [lia|]. rewrite length_app. simpl in *. lia.
  - now apply Nat.ltb_ge in E.
Qed.

Lemma step_sorted (e : event) (st st' : state) :
  step e st = Some st' -> ordered_input e = true ->
  sorted (logs st) = true -> sorted (logs st') = true.
Proof.
  intros Hs Ho Hst.
  destruct (step_logs e st st' Hs)
    as [->|[->|[(ev & x & -> & Hx & Hin & ->)|(i & recent & -> & ->)]]].
  - exact Hst.
  - reflexivity.
  - apply sorted_pushed; [exact Hst| |exact Hin].
    simpl in Ho. unfold proper_seq in Ho. rewrite Hx in Ho.
    now apply negb_true_iff.
  - simpl in Ho. apply andb_true_iff in Ho. destruct Ho as [H1 H2].
    unfold sorted. now rewrite increasing_firstn, no_nan_firstn.
Qed.

Lemma run_sorted (evs : list event) (st st' : state) :
  run evs st = Some st' -> forallb ordered_input evs = true ->
  sorted (logs st) = true -> sorted (logs st') = true.
Proof.
  apply (run_invariant ordered_input (fun s => sorted (logs s) = true)).
  intros e s s' He Hs. now apply step_sorted with e.
Qed.

Lemma appends_sorted (items : list value) (st : state) :
  forallb proper_seq items = true ->
  sorted (logs st) = true -> sorted (logs (appends items st)) = true.
Proof.
  revert st. induction items as [|item items IH]; simpl; intros st;
    [auto|].
  intros [Hi Hitems]%andb_true_iff Hst. apply (IH _ Hitems).
  destruct (addLog_cases item st) as [->|(e & He & Hin & ->)]; [exact Hst|].
  simpl. apply sorted_pushed; [exact Hst| |exact Hin].
  apply as_entry_Some in He. destruct He as (_ & Hs & _).
  unfold proper_seq in Hi. rewrite Hs in Hi. now apply negb_true_iff.
Qed.



Lemma run_bounded (evs : list event) (st st' : state) :
  run evs st = Some st' ->
  length (logs st) <= maxLogs -> length (logs st') <= maxLogs.
Proof.
  intros Hr.
  apply (run_invariant any_event (fun s => length (logs s) <= maxLogs)
           ) with (evs := evs); [|exact Hr|apply forallb_any_event].
  intros e s s' _ E Hs.
  destruct (step_logs e s s' E)
    as [->|[->|[(ev & x & _ & _ & _ & ->)|(i & recent & _ & ->)]]].
  - exact Hs.
  - simpl. lia.
  - now apply length_pushed.
  - apply firstn_le_length.
Qed.

(** ** Polls *)

Lemma logsEqual_In (l next : list entry) (e : entry) :
  logsEqual l next = true -> In e l ->
  exists e', In e' next /\ Num.strict_ne (seq e) (seq e') = false.
Proof.
  unfold logsEqual. destruct (length l =? length next) eqn:E; simpl;
    [|discriminate].
  apply Nat.eqb_eq in E. revert next E.
  induction l as [|a l IH]; intros [|b next] E; try discriminate;
    simpl; [contradiction|].
  intros [Hab Hrest]%andb_true_iff [<-|He].
  - exists b. split; [now left|]. unfold same_entry in Hab. simpl in Hab.
    apply negb_true_iff, orb_false_iff in Hab. tauto.
  - destruct (IH next) as (e' & He' & Hne); auto. exists e'. auto.
Qed.

(** A window that lies below some entry of the buffer is never equal to
    the buffer. *)
Lemma logsEqual_below (l next : list entry) (e : entry) :
  In e l -> all_below (seq e) next = true -> logsEqual l next = false.
Proof.
  intros He Hb. destruct (logsEqual l next) eqn:E; [|reflexivity].
  destruct (logsEqual_In l next e E He) as (e' & He' & Hne).
  unfold all_below in Hb. rewrite forallb_forall in Hb.
  apply Hb, NumFacts.lt_strict_ne in He'. congruence.
Qed.

Lemma all_below_firstn (m : float) (n : nat) (l : list entry) :
  all_below m l = true -> all_below m (firstn n l) = true.
Proof.
  unfold all_below. rewrite !forallb_forall. intros H e He.
  apply H. rewrite <- (firstn_skipn n l). apply in_or_app. now left.
Qed.

(** What a poll does when the window has an entry to show. *)
Lemma apply_recent_window (recent : value) (st : state) :
  normalizeEntries recent <> [] ->
  apply_recent recent st =
    if logsEqual (logs st) (firstn maxLogs (normalizeEntries recent)) then st
    else renderLogs (set_logs (firstn maxLogs (normalizeEntries recent)) st).
Proof.
  intros H. unfold apply_recent.
  destruct (normalizeEntries recent); [congruence|]. reflexivity.
Qed.

(** What a poll does when the window has none. *)
Lemma apply_recent_empty (recent : value) (st : state) :
  normalizeEntries recent = [] ->
  apply_recent recent st =
    if truthy recent && isArray recent && (0 <? array_length recent) then st
    else if length (logs st) =? 0 then renderLogs st
    else renderLogs (set_logs [] st).
Proof.
  intros H. unfold apply_recent. rewrite H. simpl.
  destruct (truthy recent && isArray recent && (0 <? array_length recent));
    [reflexivity|].
  destruct (logs st); reflexivity.
Qed.

(** The buffer after a poll depends on the buffer before it only. *)
Lemma logs_apply_recent_ext (recent : value) (st st' : state) :
  logs st = logs st' ->
  logs (apply_recent recent st) = logs (apply_recent recent st').
Proof.
  intros H. unfold apply_recent. rewrite <- H.
  destruct ((length (normalizeEntries recent) =? 0) && truthy recent
            && isArray recent && (0 <? array_length recent)); [exact H|].
  destruct ((length (normalizeEntries recent) =? 0)
            && (length (logs st) =? 0)); [exact H|].
  destruct (logsEqual (logs st) (firstn maxLogs (normalizeEntries recent)));
    [exact H | reflexivity].
Qed.

(** Once the buffer is the head of the window, a poll with the same window
    keeps it. *)
Lemma logs_apply_recent_fix (recent : value) (st : state) :
  logs st = firstn maxLogs (normalizeEntries recent) ->
  logs (apply_recent recent st) = logs st.
Proof.
  intros H. destruct (logs_apply_recent recent st) as [E|E]; congruence.
Qed.

(** ** Pushes *)

Lemma pushed_last (l : list entry) (e d : entry) :
  pushed l e <> [] /\ last (pushed l e) d = e.
Proof.
  unfold pushed. destruct (maxLogs <? length (l ++ [e])) eqn:E.
  - destruct l as [|a l]; [discriminate|].
    change (tl ((a :: l) ++ [e])) with (l ++ [e]). split.
    + now destruct l.
    + apply last_last.
  - split; [now destruct l | apply last_last].
Qed.

Lemma addLog_twice (item : value) (st : state) :
  proper_seq item = true -> addLog item (addLog item st) = addLog item st.
Proof.
  intros Hp.
  destruct (addLog_cases item st) as [H|(e & He & Hin & H)];
    [now rewrite !H|].
  rewrite H. unfold addLog at 1. rewrite He. simpl.
  destruct (pushed_last (logs st) e e) as [Hne Hl]. rewrite Hl.
  apply as_entry_Some in He. destruct He as (_ & Hs & _).
  unfold proper_seq in Hp. rewrite Hs in Hp. apply negb_true_iff in Hp.
  rewrite NumFacts.ge_refl by exact Hp.
  destruct (pushed (logs st) e); [congruence | reflexivity].
Qed.

(** ** The lifecycle *)

Lemma nth_error_snoc {A : Type} (l : list A) (x : A) :
  nth_error (l ++ [x]) (length l) = Some x.
Proof. induction l; simpl; auto. Qed.

Lemma remove_nth_snoc {A : Type} (l : list A) (x : A) :
  remove_nth (length l) (l ++ [x]) = l.
Proof.
  unfold remove_nth. induction l as [|a l IH]; [reflexivity|].
  simpl in *. now rewrite IH.
Qed.

(** The fields of a state whose [invoke] is known to be there. *)
Ltac open_state st Hi :=
  destruct st as [i ru lo pt au er lp re ti nt iv pe];
  simpl in Hi; subst i.

(** The promise made last settles: it is the last of the pending ones. *)
Ltac settle_last :=
  cbn [invoke negb setError set_errorText await_invoke pending];
  rewrite nth_error_snoc, remove_nth_snoc.

Lemma trim_not_blank (box : jsstring) :
  forallb isWhiteSpace box = false -> str_eqb (trim box) [] = false.
Proof.
  intros H. destruct (str_eqb (trim box) []) eqn:E; [|reflexivity].
  apply str_eqb_eq, trim_blank in E. congruence.
Qed.

Lemma logs_apply_recent_cleared (recent : value) (st : state) :
  logs st = [] ->
  logs (apply_recent recent st) = firstn maxLogs (normalizeEntries recent).
Proof.
  intros H. destruct (normalizeEntries recent) as [|x l] eqn:E.
  - rewrite apply_recent_empty by exact E. rewrite H. simpl.
    destruct (truthy recent && isArray recent && (0 <? array_length recent));
      simpl; congruence.
  - rewrite apply_recent_window by (rewrite E; discriminate).
    rewrite E, H. reflexivity.
Qed.

Lemma handles_apply_recent (recent : value) (st : state) :
  timers (apply_recent recent st) = timers st /\
  pollTimer (apply_recent recent st) = pollTimer st.
Proof.
  destruct (apply_recent_cases recent st) as [->|[->|[_ ->]]]; now split.
Qed.

Lemma no_stale_timer_arm_poll (st : state) :
  no_stale_timer st -> no_stale_timer (arm_poll st).
Proof.
  unfold no_stale_timer, arm_poll. intros H.
  destruct (pollTimer st) as [h|]; simpl; rewrite H; simpl;
    [rewrite Nat.eqb_refl|]; reflexivity.
Qed.

Lemma no_stale_timer_step (e : event) (st st' : state) :
  step e st = Some st' -> no_stale_timer st -> no_stale_timer st'.
Proof.
  unfold step. destruct (invoke st) eqn:Hi; simpl; [|discriminate].
  destruct e as [box| |ev|h|sh ch top|i r].
  - intros [= <-]. unfold startPing.
    destruct (str_eqb (trim box) []); [auto|]. simpl. rewrite Hi. auto.
  - intros [= <-]. unfold stopPing. simpl. rewrite Hi. auto.
  - intros [= <-].
    now destruct (on_ping_log_cases ev st) as [->|(x & _ & _ & _ & _ & ->)].
  - destruct (live h st); [|discriminate]. intros [= <-].
    unfold fetchLogs. rewrite Hi. auto.
  - intros [= <-]. auto.
  - destruct (nth_error (pending st) i) as [t|]; [|discriminate].
    intros [= <-] H. set (st1 := set_pending _ st).
    assert (H1 : no_stale_timer st1) by exact H.
    assert (Hi1 : invoke st1 = true) by exact Hi.
    clearbody st1. destruct t; simpl.
    + destruct r; simpl; [|exact H1].
      unfold fetchLogs. simpl. rewrite Hi1. exact H1.
    + destruct r; simpl; [|exact H1]. unfold no_stale_timer in *.
      destruct (pollTimer st1) as [h|] eqn:Ep; simpl.
      * rewrite H1. simpl. now rewrite Nat.eqb_refl.
      * now rewrite Ep.
    + unfold fetchLogs_settled.
      assert (H2 : no_stale_timer
                     match r with
                     | Resolved recent => apply_recent recent st1
                     | Rejected _ => st1
                     end).
      { destruct r; [|exact H1]. unfold no_stale_timer.
        now destruct (handles_apply_recent v st1) as [-> ->]. }
      destruct from_start; [now apply no_stale_timer_arm_poll | exact H2].
Qed.

Lemma no_stale_timer_run (evs : list event) (st st' : state) :
  run evs st = Some st' -> no_stale_timer st -> no_stale_timer st'.
Proof.
  intros Hr.
  apply (run_invariant any_event no_stale_timer) with (evs := evs);
    [|exact Hr|apply forallb_any_event].
  intros e s s' _. apply no_stale_timer_step.
Qed.

Lemma run_start (box : jsstring) (baseDir : value) (r : response)
  (st : state) :
  invoke st = true -> forallb isWhiteSpace box = false ->
  run [ClickStart box;
       Settle (length (pending st)) (Resolved baseDir);
       Settle (length (pending st)) r] st
  = Some (fetchLogs_settled true r (polling_first box baseDir st)).
Proof.
  intros Hi Hb. apply trim_not_blank in Hb.
  open_state st Hi.
  unfold run, step, startPing. rewrite Hb.
  settle_last.
  unfold resume, startPing_settled, fetchLogs.
  cbn [invoke negb setError set_errorText await_invoke pending set_pending
       set_logPath set_logs renderLogs set_renders set_autoScroll setRunning
       set_running running logs pollTimer autoScroll errorText logPath
       renders timers next_timer invoked].
  rewrite nth_error_snoc, remove_nth_snoc.
  unfold polling_first. cbn [invoke running logs pollTimer autoScroll
    errorText logPath renders timers next_timer invoked pending].
  cbv [set_pending await_invoke setRunning set_running set_autoScroll
       renderLogs set_renders set_logs set_logPath setError set_errorText
       invoke running logs pollTimer autoScroll errorText logPath renders
       timers next_timer invoked pending].
  rewrite <- app_assoc. reflexivity.
Qed.

Lemma run_start_fails (box : jsstring) (msg : jsstring) (st : state) :
  invoke st = true -> forallb isWhiteSpace box = false ->
  run [ClickStart box; Settle (length (pending st)) (Rejected msg)] st
  = Some (after_failure (start_ping (trim box)) msg st).
Proof.
  intros Hi Hb. apply trim_not_blank in Hb.
  open_state st Hi.
  unfold run, step, startPing. rewrite Hb.
  settle_last. reflexivity.
Qed.

Lemma run_stop (v : value) (st : state) :
  invoke st = true ->
  run [ClickStop; Settle (length (pending st)) (Resolved v)] st
  = Some (stopPing_settled (Resolved v) (sent stop_ping st)).
Proof.
  intros Hi.
  open_state st Hi.
  unfold run, step, stopPing.
  settle_last. reflexivity.
Qed.

Lemma run_stop_fails (msg : jsstring) (st : state) :
  invoke st = true ->
  run [ClickStop; Settle (length (pending st)) (Rejected msg)] st
  = Some (after_failure stop_ping msg st).
Proof.
  intros Hi.
  open_state st Hi.
  unfold run, step, stopPing.
  settle_last. reflexivity.
Qed.

(** A poll writes [logs] and the page, nothing else. *)
Lemma apply_recent_frame (recent : value) (st : state) :
  exists l n, apply_recent recent st = set_renders n (set_logs l st).
Proof.
  destruct (apply_recent_cases recent st) as [E|[E|[_ E]]]; rewrite E.
  - exists (logs st), (renders st). now destruct st.
  - exists (logs st), (S (renders st)). now destruct st.
  - exists (firstn maxLogs (normalizeEntries recent)), (S (renders st)).
    reflexivity.
Qed.

(** With no stale interval around, arming leaves exactly the new one. *)
Lemma arm_poll_fresh (st : state) :
  no_stale_timer st ->
  arm_poll st =
    set_pollTimer (Some (next_timer st))
      (set_timers [(next_timer st, 1000)] (S (next_timer st)) st).
Proof.
  unfold no_stale_timer, arm_poll. intros H.
  destruct (pollTimer st) as [h|] eqn:Ep.
  - unfold clearInterval, setInterval. rewrite H.
    cbn [filter fst negb]. rewrite Nat.eqb_refl. reflexivity.
  - unfold setInterval. rewrite H. reflexivity.
Qed.

(** * The claims *)

(** ** Poll against push *)

(** C1, as stated, fails: entries 1 and 2 have been pushed, so the buffer's
    maximum [seq] is 2; the answer of the poll that was on its way holds
    entry 1 only, its maximum [seq] 1 is below 2, and it takes the place of
    the buffer: entry 2 is gone. *)
Lemma poll_overwrites_pushed_entries :
  let before := run (started ++ [push 1 "a"; push 2 "b"]) init in
  let after :=
    run (started ++ [push 1 "a"; push 2 "b";
                     Settle 0 (Resolved (snapshot [entry_a]))]) init in
  option_map logs before = Some [entry_a; entry_b] /\
  all_below 2 (normalizeEntries (snapshot [entry_a])) = true /\
  option_map logs after = Some [entry_a] /\
  option_map logs after <> option_map logs before.
Proof.
  repeat split. intros H. vm_compute in H. discriminate H.
Qed.

(** C1, amended: a poll window is applied whatever its maximum [seq].  When
    the buffer holds an entry with [seq] m and the sanitized window of a poll
    is not empty and lies strictly below m, the poll does replace the buffer:
    afterwards the buffer is the first 100 entries of the window, and the
    list has been rendered once more. *)
Theorem poll_replaces_buffer (recent : value) (st : state) (e : entry) :
  In e (logs st) ->
  normalizeEntries recent <> [] ->
  all_below (seq e) (normalizeEntries recent) = true ->
  apply_recent recent st =
    renderLogs (set_logs (firstn maxLogs (normalizeEntries recent)) st).
Proof.
  intros He Hne Hb. rewrite apply_recent_window by exact Hne.
  rewrite (logsEqual_below _ _ e He); [reflexivity|].
  now apply all_below_firstn.
Qed.

Lemma poll_replaces_buffer_witness :
  let st := set_logs [entry_a; entry_b] init in
  logs (apply_recent (snapshot [entry_a]) st) = [entry_a] /\
  renders (apply_recent (snapshot [entry_a]) st) = 1.
Proof.
  intros st.
  rewrite (poll_replaces_buffer (snapshot [entry_a]) st entry_b).
  - split; reflexivity.
  - right. left. reflexivity.
  - discriminate.
  - reflexivity.
Defined.

(** ** Order *)

(** C2, as stated, fails: the order of the buffer is that of what comes in.
    A poll is answered with entry 3 before entry 2, and the buffer holds
    them so, 3 before 2; and [addLog] lets an entry with [seq] NaN into an
    empty buffer and entry 2 in after it, where NaN is not below 2. *)
Lemma unordered_window_breaks_order :
  let late := mkEntry 3 (lit "c") in
  let after :=
    run (started ++ [Settle 0 (Resolved (snapshot [late; entry_b]))]) init in
  let blurred := mkEntry nan (lit "a") in
  let appended := appends [obj_of_entry blurred; obj_of_entry entry_b] init in
  option_map logs after = Some [late; entry_b] /\
  Num.lt (seq late) (seq entry_b) = false /\
  (forall st, after = Some st -> ascending (logs st) -> False) /\
  logs appended = [blurred; entry_b] /\
  Num.lt (seq blurred) (seq entry_b) = false /\
  (ascending (logs appended) -> False).
Proof.
  intros late after blurred appended.
  assert (A : after = Some (mkState true true [late; entry_b] (Some 1) true
                              [] (VStr (lit "/var/log/ping")) 2 [(1, 1000)]
                              2 [start_ping (lit "example.org");
                                 get_recent_logs] []))
    by (vm_compute; reflexivity).
  assert (B : logs appended = [blurred; entry_b])
    by (vm_compute; reflexivity).
  split; [now rewrite A|]. split; [reflexivity|]. split; [|split; [|split]].
  - intros st E H. rewrite A in E. injection E as <-.
    specialize (H 0 1 late entry_b (Nat.lt_0_1) eq_refl eq_refl).
    vm_compute in H. discriminate H.
  - exact B.
  - reflexivity.
  - intros H. rewrite B in H.
    specialize (H 0 1 blurred entry_b (Nat.lt_0_1) eq_refl eq_refl).
    vm_compute in H. discriminate H.
Qed.

(** C2, amended: in every state reached from the start of the page by an
    interleaving of pushed entries and poll windows whose [seq] are numbers
    proper (not NaN) and whose windows are each in ascending [seq], the
    buffer is strictly increasing in [seq]: an earlier entry is always below
    a later one, so there is no duplicate and no inversion.  In particular
    this holds after any sequence of [addLog] calls whose [seq] are not
    NaN.  The code checks the order of pushed entries only; the order within
    a poll window is the backend's. *)
Theorem buffer_strictly_increasing :
  (forall (evs : list event) (st : state),
      run evs init = Some st ->
      forallb ordered_input evs = true ->
      ascending (logs st)) /\
  (forall items : list value,
      forallb proper_seq items = true ->
      ascending (logs (appends items init))).
Proof.
  split.
  - intros evs st Hr Ho. apply increasing_ascending.
    assert (S := run_sorted evs init st Hr Ho eq_refl).
    now apply andb_true_iff in S.
  - intros items Hi. apply increasing_ascending.
    assert (S := appends_sorted items init Hi eq_refl).
    now apply andb_true_iff in S.
Qed.

Lemma buffer_strictly_increasing_witness :
  forallb ordered_input mixed_run = true /\
  match run mixed_run init with
  | Some st => logs st = window 1 5 /\ ascending (logs st)
  | None => False
  end.
Proof.
  assert (O : forallb ordered_input mixed_run = true)
    by (vm_compute; reflexivity).
  split; [exact O|].
  destruct (run mixed_run init) as [st|] eqn:E;
    [|vm_compute in E; discriminate E].
  split.
  - pose proof E as E'. vm_compute in E'. injection E' as <-.
    vm_compute. reflexivity.
  - exact (proj1 buffer_strictly_increasing mixed_run st E O).
Defined.

(** ** Malformed polls *)

(** C3, as stated, fails: with entry 1 in the buffer, a poll that answers
    [null], which is not an array, empties the buffer. *)
Lemma non_array_poll_clears_buffer :
  let before := run (started ++ [push 1 "a"]) init in
  let after := run (started ++ [push 1 "a"; Settle 0 (Resolved VNull)]) init in
  isArray VNull = false /\
  option_map logs before = Some [entry_a] /\
  option_map logs after = Some [] /\
  option_map logs after <> option_map logs before.
Proof.
  repeat split. intros H. vm_compute in H. discriminate H.
Qed.

(** C3, amended: a poll response that is a non-empty array without a single
    well-shaped element is discarded whole: nothing changes and nothing is
    rendered.  A response that is not an array counts as the empty window:
    the buffer is empty afterwards.  No ill-shaped element ever reaches the
    buffer: after a poll each entry of the buffer was there before or is a
    well-shaped element of the array. *)
Theorem malformed_poll (recent : value) (st : state) :
  (0 < array_length recent -> normalizeEntries recent = [] ->
   apply_recent recent st = st) /\
  (isArray recent = false -> logs (apply_recent recent st) = []) /\
  (forall e, In e (logs (apply_recent recent st)) ->
     In e (logs st) \/
     exists items item,
       recent = VArr items /\ In item items /\
       well_shaped item = true /\ as_entry item = Some e).
Proof.
  split; [|split].
  - intros Hlen Hn. rewrite apply_recent_empty by exact Hn.
    destruct recent; simpl in Hlen; try lia.
    simpl. apply Nat.ltb_lt in Hlen. now rewrite Hlen.
  - intros Ha.
    assert (Hn : normalizeEntries recent = []) by now destruct recent.
    rewrite apply_recent_empty by exact Hn. rewrite Ha, andb_false_r. simpl.
    destruct (logs st) eqn:El; simpl; [exact El | reflexivity].
  - intros e He.
    destruct (logs_apply_recent recent st) as [E|E]; rewrite E in He;
      [now left|]. right.
    assert (Hin : In e (normalizeEntries recent)).
    { rewrite <- (firstn_skipn maxLogs (normalizeEntries recent)).
      apply in_or_app. now left. }
    destruct recent; simpl in Hin; try contradiction.
    destruct (collect_In _ _ Hin) as (item & Hitem & Hsome).
    exists items, item. repeat split; try assumption.
    destruct (well_shaped item) eqn:W; [reflexivity|].
    apply as_entry_None in W. congruence.
Qed.

Lemma malformed_poll_witness :
  let st := set_logs [entry_a] init in
  let recent := VArr [VNull; VNum 7; VObj [(k_seq, VStr (lit "1"))]] in
  apply_recent recent st = st.
Proof.
  intros st recent.
  apply (proj1 (malformed_poll recent st)).
  - simpl. lia.
  - reflexivity.
Defined.

(** ** Capacity *)



(** ** Idempotence *)

(** C5, as stated, fails: on the empty buffer the empty window is rendered
    every time it comes, so the second delivery of the same snapshot does
    trigger a render. *)
Lemma empty_snapshot_renders_again :
  let once := apply_recent (VArr []) init in
  let twice := apply_recent (VArr []) once in
  renders once = 1 /\ renders twice = 2 /\ twice <> once.
Proof.
  repeat split. intros H. apply (f_equal renders) in H. discriminate H.
Qed.

(** C5, amended: applying the same poll snapshot twice yields the same
    buffer as applying it once.  When the snapshot is a non-empty array and
    no [seq] of its entries is NaN the second application changes nothing at
    all, so it does not render (an empty window, or a response that is not an
    array, is rendered again each time it comes to an empty buffer).
    Delivering the same push entry twice, its [seq] not NaN, changes nothing
    and renders nothing the second time. *)
Theorem reconciliation_idempotent (recent : value) (ev : value) (st : state) :
  logs (apply_recent recent (apply_recent recent st))
    = logs (apply_recent recent st) /\
  (0 < array_length recent -> no_nan (normalizeEntries recent) = true ->
   apply_recent recent (apply_recent recent st) = apply_recent recent st) /\
  (proper_seq (payload_of ev) = true ->
   on_ping_log ev (on_ping_log ev st) = on_ping_log ev st).
Proof.
  split; [|split].
  - destruct (apply_recent_cases recent st) as [E|[E|[_ E]]].
    + now rewrite !E.
    + rewrite E at 1. rewrite (logs_apply_recent_ext recent (renderLogs st) st);
        reflexivity.
    + rewrite E. now apply logs_apply_recent_fix.
  - intros Hlen Hn.
    destruct (normalizeEntries recent) as [|x entries] eqn:En.
    + rewrite !apply_recent_empty by exact En.
      destruct recent; simpl in Hlen; try lia.
      simpl. apply Nat.ltb_lt in Hlen. now rewrite Hlen.
    + assert (Hne : normalizeEntries recent <> []) by (rewrite En; discriminate).
      rewrite <- En in *.
      rewrite (apply_recent_window recent st Hne).
      destruct (logsEqual (logs st) (firstn maxLogs (normalizeEntries recent)))
        eqn:E.
      * rewrite (apply_recent_window recent st Hne). now rewrite E.
      * rewrite apply_recent_window by exact Hne.
        cbn [logs renderLogs set_logs set_renders].
        rewrite logsEqual_refl; [reflexivity|]. now apply no_nan_firstn.
  - intros Hp. unfold on_ping_log. fold (payload_of ev).
    destruct (truthy (payload_of ev)); simpl; [|reflexivity].
    apply addLog_twice. exact Hp.
Qed.

Lemma reconciliation_idempotent_witness :
  let recent := snapshot [entry_a; entry_b] in
  let ev := VObj [(k_payload, obj_of_entry entry_b)] in
  apply_recent recent (apply_recent recent init) = apply_recent recent init /\
  on_ping_log ev (on_ping_log ev init) = on_ping_log ev init.
Proof.
  intros recent ev. split.
  - apply (proj1 (proj2 (reconciliation_idempotent recent ev init)));
      [simpl; lia | reflexivity].
  - apply (proj2 (proj2 (reconciliation_idempotent recent ev init))).
    reflexivity.
Defined.

(** ** Clipping a long window *)

(** C6: the code at the input where it departs from the claim.  The poll
    answers with the ordered window of the 101 entries [seq] 1..101 and the
    buffer is empty.  [slice(0, maxLogs)] keeps the first 100 entries: the
    buffer becomes 1..100, so the newest entry, 101, is cut off and the
    oldest, 1, is kept, where the claim has the 100 most recent, 2..101 (what
    [addLog] leaves when the same entries are pushed one by one). *)
Theorem poll_window_keeps_oldest :
  let recent := snapshot (window 1 101) in
  increasing (normalizeEntries recent) = true /\
  logsEqual (logs init) (normalizeEntries recent) = false /\
  logs (apply_recent recent init) = window 1 100 /\
  holds 101 (logs (apply_recent recent init)) = false /\
  holds 1 (logs (apply_recent recent init)) = true /\
  logs (appends (map obj_of_entry (window 1 101)) init) = window 2 100.
Proof. vm_compute. repeat split. Qed.

(** ** Start *)

(** C7: [startPing] with an address box that is empty or all white space
    fails: the error line shows the message for a missing address, which is
    not empty, no command is sent, no promise is awaited, and [running], the
    buffer, the interval and the rest stay as they are; the click is an
    event that ends so.  With a proper address and a backend that
    accepts [start_ping], the run of the click, the answer to [start_ping]
    and the answer to the first poll sends exactly [start_ping] with the
    trimmed address and one [get_recent_logs]; the buffer, emptied, holds
    what that one poll brought; [autoScroll] and [running] are true; and
    the one live interval is a new one of 1000 ms, held by [pollTimer].
    In every state reached from the start of the page, no interval is
    live but the one [pollTimer] holds. *)
Theorem start_lifecycle (box : jsstring) (st : state) :
  (forallb isWhiteSpace box = true ->
   let st' := startPing box st in
   (invoke st = true -> run [ClickStart box] st = Some st') /\
   errorText st' = msg_no_address /\
   msg_no_address
   = [35831; 36755; 20837; 30446; 26631; 22320; 22336; 12290]%N /\
   invoked st' = invoked st /\ pending st' = pending st /\
   running st' = running st /\ logs st' = logs st /\
   pollTimer st' = pollTimer st /\ timers st' = timers st /\
   next_timer st' = next_timer st /\ autoScroll st' = autoScroll st /\
   renders st' = renders st /\ logPath st' = logPath st /\
   invoke st' = invoke st) /\
  (forallb isWhiteSpace box = false ->
   invoke st = true -> no_stale_timer st ->
   forall (baseDir : value) (r : response),
   exists st',
     run [ClickStart box;
          Settle (length (pending st)) (Resolved baseDir);
          Settle (length (pending st)) r] st = Some st' /\
     invoked st' = invoked st ++ [start_ping (trim box); get_recent_logs] /\
     pending st' = pending st /\
     logs st' = match r with
                | Resolved recent => firstn maxLogs (normalizeEntries recent)
                | Rejected _ => []
                end /\
     autoScroll st' = true /\ running st' = true /\
     pollTimer st' = Some (next_timer st) /\
     timers st' = [(next_timer st, 1000)]) /\
  (forall (evs : list event) (st' : state),
     run evs init = Some st' -> no_stale_timer st').
Proof.
  split; [|split].
  - intros Hb. apply trim_blank in Hb. unfold startPing. rewrite Hb.
    cbn [str_eqb]. split.
    + intros Hi. simpl. unfold step, startPing. rewrite Hi, Hb. reflexivity.
    + repeat split.
  - intros Hb Hi Ht baseDir r.
    exists (fetchLogs_settled true r (polling_first box baseDir st)).
    split; [now apply run_start|].
    unfold fetchLogs_settled, after_fetch.
    set (P := polling_first box baseDir st).
    assert (HP : no_stale_timer P) by exact Ht.
    assert (F : exists l n,
               match r with
               | Resolved recent => apply_recent recent P
               | Rejected _ => P
               end = set_renders n (set_logs l P) /\
               l = match r with
                   | Resolved recent => firstn maxLogs (normalizeEntries recent)
                   | Rejected _ => []
                   end).
    { destruct r as [recent|msg].
      - destruct (apply_recent_frame recent P) as (l & n & E).
        exists l, n. split; [exact E|].
        rewrite <- (logs_apply_recent_cleared recent P eq_refl). now rewrite E.
      - exists [], (renders P). split; reflexivity. }
    destruct F as (l & n & -> & ->).
    rewrite arm_poll_fresh by exact HP.
    repeat split.
  - intros evs st' Hr. apply (no_stale_timer_run evs init st' Hr).
    reflexivity.
Qed.

Lemma start_lifecycle_witness :
  (run [ClickStart (lit "  ")] init = Some (startPing (lit "  ") init) /\
   errorText (startPing (lit "  ") init) = msg_no_address /\
   invoked (startPing (lit "  ") init) = [] /\
   running (startPing (lit "  ") init) = false) /\
  exists st',
    run (started ++ [Settle 0 (Resolved (snapshot [entry_a]))]) init
      = Some st' /\
    logs st' = [entry_a] /\ running st' = true /\
    pollTimer st' = Some 1 /\ timers st' = [(1, 1000)].
Proof.
  split.
  - destruct (proj1 (start_lifecycle (lit "  ") init) eq_refl)
      as (H1 & H2 & _ & H3 & _ & H4 & _).
    split; [exact (H1 eq_refl)|]. split; [exact H2|].
    split; [exact H3 | exact H4].
  - destruct (proj1 (proj2 (start_lifecycle (lit "example.org") init))
                eq_refl eq_refl eq_refl
                (VStr (lit "/var/log/ping"))
                (Resolved (snapshot [entry_a])))
      as (st' & Hr & _ & _ & Hl & _ & Hru & Hp & Ht).
    exists st'. repeat split; assumption.
Defined.

(** ** Rejected commands *)

(** C8: [running], the buffer, the interval, the page's list and the view
    are the same after a backend command is rejected as before it was sent.
    When [start_ping] is rejected, and when [stop_ping] is rejected, the
    only traces of the click are the reason on the error line and the
    command in the backend's log: an idle page stays idle with no interval
    set, a running one stays running with its interval live. *)
Theorem backend_failure_is_atomic (st : state) (msg : jsstring) :
  invoke st = true ->
  (forall box : jsstring, forallb isWhiteSpace box = false ->
     run [ClickStart box; Settle (length (pending st)) (Rejected msg)] st
     = Some (after_failure (start_ping (trim box)) msg st)) /\
  run [ClickStop; Settle (length (pending st)) (Rejected msg)] st
  = Some (after_failure stop_ping msg st).
Proof.
  intros Hi. split.
  - intros box Hb. now apply run_start_fails.
  - now apply run_stop_fails.
Qed.

Lemma backend_failure_is_atomic_witness :
  run running_probe init = Some probe_state /\
  run [ClickStart (lit "example.org"); Settle 0 (Rejected (lit "no route"))]
    init
  = Some (after_failure (start_ping (lit "example.org")) (lit "no route")
            init) /\
  run [ClickStop; Settle 0 (Rejected (lit "busy"))] probe_state
  = Some (after_failure stop_ping (lit "busy") probe_state).
Proof.
  split; [vm_compute; reflexivity|]. split.
  - exact (proj1 (backend_failure_is_atomic init (lit "no route") eq_refl)
             (lit "example.org") eq_refl).
  - exact (proj2 (backend_failure_is_atomic probe_state (lit "busy") eq_refl)).
Defined.

(** ** Polls in flight *)

(** C9, as stated, fails: a probe runs and its interval fires twice before
    the backend has answered the first of the two polls; both requests are
    out at once. *)
Lemma two_polls_in_flight :
  exists st,
    run (running_probe ++ [Tick 1; Tick 1]) init = Some st /\
    running st = true /\ in_flight st = 2 /\ ~ in_flight st <= 1.
Proof.
  eexists. split; [vm_compute; reflexivity|].
  repeat split. vm_compute. lia.
Qed.

(** C9, amended: the interval does not wait for the previous poll.  Every
    firing of a live interval sends one more [get_recent_logs], whatever is
    still pending, so the number of polls in flight grows by one with each
    tick. *)
Theorem tick_polls_regardless (h : nat) (st : state) :
  invoke st = true -> live h st = true ->
  exists st',
    step (Tick h) st = Some st' /\
    invoked st' = invoked st ++ [get_recent_logs] /\
    in_flight st' = S (in_flight st).
Proof.
  intros Hi Hl. unfold step. rewrite Hi, Hl. simpl.
  exists (fetchLogs false st). split; [reflexivity|].
  unfold fetchLogs. rewrite Hi. simpl. split; [reflexivity|].
  unfold in_flight. simpl. rewrite filter_app, length_app. simpl. lia.
Qed.

Lemma tick_polls_regardless_witness :
  run running_probe init = Some probe_state /\
  exists st',
    step (Tick 1) probe_state = Some st' /\
    in_flight st' = 1 /\
    exists st'', step (Tick 1) st' = Some st'' /\ in_flight st'' = 2.
Proof.
  split; [vm_compute; reflexivity|].
  destruct (tick_polls_regardless 1 probe_state eq_refl eq_refl)
    as (st' & Hs & _ & Hf).
  exists st'. split; [exact Hs|]. split; [exact Hf|].
  assert (Hi : invoke st' = true).
  { unfold step in Hs. simpl in Hs. now injection Hs as <-. }
  assert (Hl : live 1 st' = true).
  { unfold step in Hs. simpl in Hs. now injection Hs as <-. }
  destruct (tick_polls_regardless 1 st' Hi Hl) as (st'' & Hs' & _ & Hf').
  exists st''. split; [exact Hs'|]. now rewrite Hf', Hf.
Defined.

(** ** Shape of a pushed payload *)

(** C10, as stated, fails: a pushed payload whose [seq] is 1.5, a number
    but not an integer, is taken into the buffer and rendered. *)
Lemma fractional_seq_is_accepted :
  let ev := VObj [(k_payload,
                   VObj [(k_seq, VNum 1.5); (k_line, VStr (lit "x"))])] in
  Num.is_integer 1.5 = false /\
  logs (on_ping_log ev init) = [mkEntry 1.5 (lit "x")] /\
  renders (on_ping_log ev init) = 1 /\
  on_ping_log ev init <> init.
Proof.
  repeat split. intros H. apply (f_equal renders) in H. discriminate H.
Qed.

(** C10, amended: a push payload gets into the buffer only if its [seq] is
    of type number (any number, an integer or not) and its [line] of type
    string; a payload that is missing, or whose [seq] is not a number, or
    whose [line] is not a string, is dropped: no variable changes and nothing
    is rendered. *)
Theorem push_shape_validation (ev : value) (st : state) :
  truthy (payload_of ev) = false \/
  typeof (get (payload_of ev) k_seq) <> TNumber \/
  typeof (get (payload_of ev) k_line) <> TString ->
  on_ping_log ev st = st.
Proof.
  intros H.
  destruct (on_ping_log_cases ev st) as [E|(e & Ht & Hs & Hl & _)];
    [exact E|].
  rewrite Ht, Hs, Hl in H. simpl in H.
  destruct H as [H|[H|H]]; congruence.
Qed.

Lemma push_shape_validation_witness :
  let ev := VObj [(k_payload,
                   VObj [(k_seq, VStr (lit "7")); (k_line, VStr (lit "x"))])] in
  on_ping_log ev init = init.
Proof.
  intros ev. apply (push_shape_validation ev init).
  right. left. discriminate.
Defined.

(** ** Further properties *)

(** A push whose [seq] the last entry of the buffer already reaches (a
    duplicate, or an entry that comes late) is ignored: no variable changes
    and nothing is rendered. *)
Theorem stale_push_is_ignored (item : value) (e : entry) (st : state) :
  as_entry item = Some e -> logs st <> [] ->
  Num.ge (seq (last (logs st) e)) (seq e) = true ->
  addLog item st = st.
Proof.
  intros He Hne Hge. unfold addLog. rewrite He, Hge.
  destruct (logs st); [congruence | reflexivity].
Qed.

Lemma stale_push_is_ignored_witness :
  let five := VObj [(k_seq, VNum 5); (k_line, VStr (lit "b"))] in
  let seven := VObj [(k_seq, VNum 7); (k_line, VStr (lit "c"))] in
  addLog five (set_logs [mkEntry 5 (lit "a")] init)
    = set_logs [mkEntry 5 (lit "a")] init /\
  addLog seven (set_logs [mkEntry 10 (lit "a")] init)
    = set_logs [mkEntry 10 (lit "a")] init.
Proof.
  intros five seven. split.
  - apply (stale_push_is_ignored five (mkEntry 5 (lit "b")));
      [reflexivity | discriminate | reflexivity].
  - apply (stale_push_is_ignored seven (mkEntry 7 (lit "c")));
      [reflexivity | discriminate | reflexivity].
Defined.

(** A poll window of at most 100 entries, all well shaped: when it agrees
    with the buffer entry by entry nothing changes and nothing is rendered;
    otherwise the buffer becomes the window. *)
Theorem poll_window_within_capacity (l : list entry) (st : state) :
  l <> [] -> length l <= maxLogs ->
  apply_recent (snapshot l) st =
    if logsEqual (logs st) l then st else renderLogs (set_logs l st).
Proof.
  intros Hne Hlen.
  assert (N : normalizeEntries (snapshot l) = l) by apply collect_obj.
  rewrite apply_recent_window by (rewrite N; exact Hne).
  now rewrite N, firstn_all2 by exact Hlen.
Qed.

Lemma poll_window_within_capacity_witness :
  apply_recent (snapshot [entry_a; entry_b]) (set_logs [entry_a; entry_b] init)
    = set_logs [entry_a; entry_b] init /\
  logs (apply_recent (snapshot (window 1 3)) init) = window 1 3.
Proof.
  split.
  - rewrite poll_window_within_capacity;
      [reflexivity | discriminate | simpl; unfold maxLogs; lia].
  - rewrite poll_window_within_capacity;
      [reflexivity | discriminate | simpl; unfold maxLogs; lia].
Defined.

(** [stopPing] with a backend that accepts [stop_ping]: afterwards
    [running] is false, [pollTimer] is [null] and no interval is live; the
    buffer is as it was. *)
Theorem stop_lifecycle (v : value) (st : state) :
  invoke st = true -> no_stale_timer st ->
  exists st',
    run [ClickStop; Settle (length (pending st)) (Resolved v)] st = Some st' /\
    invoked st' = invoked st ++ [stop_ping] /\
    running st' = false /\ pollTimer st' = None /\ timers st' = [] /\
    logs st' = logs st.
Proof.
  intros Hi Ht. eexists. split; [now apply run_stop|].
  destruct st as [i ru lo pt au er lp re ti nt iv pe].
  unfold no_stale_timer in Ht. simpl in Ht. subst ti.
  destruct pt as [h|]; cbn; [rewrite Nat.eqb_refl|]; repeat split.
Qed.

Lemma stop_lifecycle_witness :
  exists st',
    run [ClickStop; Settle 0 (Resolved VNull)] probe_state = Some st' /\
    running st' = false /\ pollTimer st' = None /\ timers st' = [].
Proof.
  destruct (stop_lifecycle VNull probe_state eq_refl eq_refl)
    as (st' & Hr & _ & Hru & Hp & Ht & _).
  exists st'. repeat split; assumption.
Defined.

(** *** [logsEqual] as a relation *)

Lemma str_eqb_sym (s t : jsstring) : str_eqb s t = str_eqb t s.
Proof.
  revert t. induction s as [|c s IH]; intros [|d t]; simpl; try reflexivity.
  now rewrite N.eqb_sym, IH.
Qed.

Lemma same_entry_sym (a b : entry) : same_entry (a, b) = same_entry (b, a).
Proof.
  unfold same_entry. simpl. now rewrite NumFacts.strict_ne_sym, str_eqb_sym.
Qed.

Lemma same_entry_trans (a b c : entry) :
  same_entry (a, b) = true -> same_entry (b, c) = true ->
  same_entry (a, c) = true.
Proof.
  unfold same_entry. simpl. rewrite !negb_true_iff, !orb_false_iff.
  rewrite !negb_false_iff, !str_eqb_eq.
  intros [H1 H2] [H3 H4]. split; [|congruence].
  exact (NumFacts.strict_ne_trans _ _ _ H1 H3).
Qed.

Lemma logsEqual_cons (a b : entry) (l next : list entry) :
  logsEqual (a :: l) (b :: next) = same_entry (a, b) && logsEqual l next.
Proof.
  unfold logsEqual. simpl. destruct (length l =? length next); simpl;
    [reflexivity | now rewrite andb_false_r].
Qed.

Lemma logsEqual_sym (l next : list entry) :
  logsEqual l next = logsEqual next l.
Proof.
  unfold logsEqual. rewrite (Nat.eqb_sym (length l)).
  destruct (length next =? length l); simpl; [|reflexivity].
  revert next. induction l as [|a l IH]; intros [|b next]; simpl;
    try reflexivity.
  now rewrite same_entry_sym, IH.
Qed.

Lemma logsEqual_self (l : list entry) : logsEqual l l = no_nan l.
Proof.
  unfold logsEqual. rewrite Nat.eqb_refl. simpl.
  induction l as [|a l IH]; simpl; [reflexivity|].
  rewrite IH. f_equal. unfold same_entry. simpl.
  now rewrite str_eqb_refl, orb_false_r.
Qed.

Lemma logsEqual_trans (l1 l2 l3 : list entry) :
  logsEqual l1 l2 = true -> logsEqual l2 l3 = true -> logsEqual l1 l3 = true.
Proof.
  revert l2 l3. induction l1 as [|a l1 IH]; intros [|b l2] [|c l3];
    try discriminate; try reflexivity.
  rewrite !logsEqual_cons, !andb_true_iff. intros [H1 H2] [H3 H4]. split.
  - exact (same_entry_trans a b c H1 H3).
  - exact (IH l2 l3 H2 H4).
Qed.

Lemma logsEqual_lines (l next : list entry) :
  logsEqual l next = true ->
  length l = length next /\ map line l = map line next.
Proof.
  revert next. induction l as [|a l IH]; intros [|b next];
    try discriminate; [now split|].
  rewrite logsEqual_cons, andb_true_iff. intros [H1 H2].
  destruct (IH next H2) as [Hl Hm]. simpl. split; [now rewrite Hl|].
  unfold same_entry in H1. simpl in H1.
  apply negb_true_iff, orb_false_iff in H1. destruct H1 as [_ H1].
  apply negb_false_iff, str_eqb_eq in H1. now rewrite H1, Hm.
Qed.

(** [logsEqual] is symmetric and transitive, and a list equals itself
    exactly when none of its [seq] is NaN (NaN differs from itself under
    [!==]); lists it finds equal have the same length and the same lines in
    the same order. *)
Theorem logsEqual_partial_equivalence :
  (forall l next, logsEqual l next = logsEqual next l) /\
  (forall l1 l2 l3,
      logsEqual l1 l2 = true -> logsEqual l2 l3 = true ->
      logsEqual l1 l3 = true) /\
  (forall l, logsEqual l l = no_nan l) /\
  (forall l next,
      logsEqual l next = true ->
      length l = length next /\ map line l = map line next).
Proof.
  split; [exact logsEqual_sym|]. split; [exact logsEqual_trans|].
  split; [exact logsEqual_self | exact logsEqual_lines].
Qed.

Lemma logsEqual_partial_equivalence_witness :
  let minus_zero := mkEntry (-0) (lit "a") in
  let zero := mkEntry 0 (lit "a") in
  logsEqual [minus_zero; entry_b] [zero; entry_b] = true /\
  logsEqual [zero; entry_b] [minus_zero; entry_b] = true /\
  logsEqual [mkEntry nan (lit "a")] [mkEntry nan (lit "a")] = false.
Proof.
  intros minus_zero zero.
  assert (E : logsEqual [minus_zero; entry_b] [zero; entry_b] = true)
    by reflexivity.
  split; [exact E|]. split.
  - rewrite (proj1 logsEqual_partial_equivalence). exact E.
  - rewrite (proj1 (proj2 (proj2 logsEqual_partial_equivalence))).
    reflexivity.
Defined.

(** *** [normalizeEntries] as a filter *)

Lemma collect_app (a b : list value) :
  collect (a ++ b) = collect a ++ collect b.
Proof.
  induction a as [|x a IH]; simpl; [reflexivity|].
  destruct (as_entry x); simpl; now rewrite IH.
Qed.

Lemma collect_length (items : list value) :
  length (collect items) <= length items.
Proof.
  induction items as [|x items IH]; simpl; [lia|].
  destruct (as_entry x); simpl; lia.
Qed.

Lemma collect_In_iff (items : list value) (e : entry) :
  In e (collect items) <->
  exists item, In item items /\ as_entry item = Some e.
Proof.
  split; [apply collect_In|].
  intros (item & Hin & He). induction items as [|x items IH]; [contradiction|].
  simpl. destruct Hin as [->|Hin].
  - rewrite He. now left.
  - destruct (as_entry x); [right|]; now apply IH.
Qed.

(** [normalizeEntries] gives back the entries an array was made of, keeps
    the order of what it lets through (the window of two arrays joined is
    the two windows joined), never returns more entries than the array has
    elements, and returns exactly the entries of the well-shaped elements;
    what is not an array has the empty window. *)
Theorem normalizeEntries_filters :
  (forall l : list entry, normalizeEntries (snapshot l) = l) /\
  (forall a b : list value,
      normalizeEntries (VArr (a ++ b))
      = normalizeEntries (VArr a) ++ normalizeEntries (VArr b)) /\
  (forall items : list value,
      length (normalizeEntries (VArr items)) <= length items) /\
  (forall (items : list value) (e : entry),
      In e (normalizeEntries (VArr items)) <->
      exists item, In item items /\ well_shaped item = true /\
                   get item k_seq = VNum (seq e) /\
                   get item k_line = VStr (line e)) /\
  (forall raw : value, isArray raw = false -> normalizeEntries raw = []).
Proof.
  split; [exact collect_obj|]. split; [exact collect_app|].
  split; [exact collect_length|]. split.
  - intros items e. simpl. rewrite collect_In_iff. split.
    + intros (item & Hin & He). exists item. split; [exact Hin|].
      destruct (well_shaped item) eqn:W.
      * apply as_entry_Some in He. tauto.
      * apply as_entry_None in W. congruence.
    + intros (item & Hin & W & Hs & Hl). exists item. split; [exact Hin|].
      unfold as_entry. rewrite W, Hs, Hl. now destruct e.
  - intros raw H. now destruct raw.
Qed.

Lemma normalizeEntries_filters_witness :
  let mixed :=
    [obj_of_entry entry_a; VNull; VStr (lit "x");
     VObj [(k_seq, VStr (lit "2")); (k_line, VStr (lit "b"))];
     obj_of_entry entry_b] in
  normalizeEntries (VArr mixed) = [entry_a; entry_b] /\
  In entry_b (normalizeEntries (VArr mixed)) /\
  normalizeEntries (VStr (lit "oops")) = [].
Proof.
  intros mixed. split; [reflexivity|]. split.
  - apply (proj1 (proj2 (proj2 (proj2 normalizeEntries_filters))) mixed).
    exists (obj_of_entry entry_b). repeat split. simpl. tauto.
  - apply (proj2 (proj2 (proj2 (proj2 normalizeEntries_filters)))).
    reflexivity.
Defined.

(** *** After a stop *)

Lemma forallb_remove_nth {A : Type} (f : A -> bool) (i : nat) (l : list A) :
  forallb f l = true -> forallb f (remove_nth i l) = true.
Proof.
  intros H. unfold remove_nth. rewrite forallb_app.
  rewrite forallb_forall in H. apply andb_true_iff. split;
    apply forallb_forall; intros x Hx; apply H.
  - rewrite <- (firstn_skipn i l). apply in_or_app. now left.
  - rewrite <- (firstn_skipn (S i) l). apply in_or_app. now right.
Qed.

Lemma at_rest_step (e : event) (st st' : state) :
  at_rest st -> no_start e = true -> step e st = Some st' ->
  at_rest st' /\ no_tick e = true /\ polls_sent st' = polls_sent st /\
  (no_push e = true -> logs st' = logs st /\ renders st' = renders st).
Proof.
  intros (Ht & Hp & Hq) Hns. unfold step.
  destruct (invoke st) eqn:Hi; simpl; [|discriminate].
  destruct e as [box| |ev|h|sh ch top|i r]; try discriminate Hns.
  - intros [= <-]. unfold stopPing. simpl. rewrite Hi.
    unfold at_rest, polls_sent. simpl.
    rewrite forallb_app, Hq, filter_app, length_app.
    simpl. repeat split; auto.
  - intros [= <-].
    destruct (on_ping_log_cases ev st) as [->|(x & _ & _ & _ & _ & ->)];
      repeat split; try assumption; discriminate.
  - unfold live. rewrite Ht. discriminate.
  - intros [= <-]. repeat split; assumption.
  - destruct (nth_error (pending st) i) as [t|] eqn:En; [|discriminate].
    intros [= <-].
    assert (Hstop : is_stop_task t = true).
    { rewrite forallb_forall in Hq. apply Hq. now apply nth_error_In with i. }
    destruct t; try discriminate Hstop.
    assert (Hq' := forallb_remove_nth is_stop_task i _ Hq).
    destruct r as [v|msg]; simpl.
    + rewrite Hp. repeat split; assumption.
    + repeat split; assumption.
Qed.

(** Once the probe is at rest (no interval set, [pollTimer] null, nothing
    outstanding but stop requests) it stays so until [startPing] is called
    again: whatever else happens, no interval fires and no
    [get_recent_logs] is sent, and unless an entry is pushed the buffer is
    neither changed nor rendered. *)
Theorem polling_ceases_after_stop (evs : list event) (st st' : state) :
  at_rest st -> forallb no_start evs = true -> run evs st = Some st' ->
  at_rest st' /\ forallb no_tick evs = true /\
  polls_sent st' = polls_sent st /\
  (forallb no_push evs = true ->
   logs st' = logs st /\ renders st' = renders st).
Proof.
  revert st. induction evs as [|e evs IH]; simpl; intros st Hq Hns.
  - intros [= <-]. split; [exact Hq|]. repeat split; reflexivity.
  - apply andb_true_iff in Hns. destruct Hns as [He Hevs].
    destruct (step e st) as [st1|] eqn:E; [|discriminate]. intros Hr.
    destruct (at_rest_step e st st1 Hq He E) as (Hq1 & Ht1 & Hp1 & Hl1).
    destruct (IH st1 Hq1 Hevs Hr) as (Hq' & Ht' & Hp' & Hl').
    split; [exact Hq'|]. split; [now rewrite Ht1, Ht'|].
    split; [congruence|].
    intros [Hp Hps]%andb_true_iff.
    destruct (Hl1 Hp) as [A B], (Hl' Hps) as [C D]. split; congruence.
Qed.

Lemma polling_ceases_after_stop_witness :
  let stopped := after_stop probe_state in
  let later :=
    [ClickStop; Scroll 400 100 20; Settle 0 (Rejected (lit "not running"))] in
  run [ClickStop; Settle 0 (Resolved VNull)] probe_state = Some stopped /\
  match run later stopped with
  | Some st' => at_rest st' /\ logs st' = logs stopped
  | None => False
  end.
Proof.
  intros stopped later. split; [vm_compute; reflexivity|].
  destruct (run later stopped) as [st'|] eqn:E;
    [|vm_compute in E; discriminate E].
  destruct (polling_ceases_after_stop later stopped st') as (H1 & _ & _ & H2).
  - repeat split.
  - reflexivity.
  - exact E.
  - split; [exact H1|]. now apply H2.
Defined.

(** *** The page *)

(** *** The page and the log model *)

Lemma core_renderLogs (rd : Page.reads) (p : Page.page) :
  Page.core (Page.renderLogs rd p) = renderLogs (Page.core p).
Proof.
  unfold Page.renderLogs. cbn [Page.lift Page.with_core Page.core].
  destruct (length (logs (renderLogs (Page.core p))) =? 0); reflexivity.
Qed.

Lemma core_addLog (rd : Page.reads) (item : value) (p : Page.page) :
  Page.core (Page.addLog rd item p) = addLog item (Page.core p).
Proof.
  unfold Page.addLog, addLog. destruct (as_entry item) as [e|]; [|reflexivity].
  destruct ((0 <? length (logs (Page.core p)))
            && Num.ge (seq (last (logs (Page.core p)) e)) (seq e));
    [reflexivity|].
  now rewrite core_renderLogs.
Qed.

Lemma core_apply_recent (rd : Page.reads) (recent : value) (p : Page.page) :
  Page.core (Page.apply_recent rd recent p) = apply_recent recent (Page.core p).
Proof.
  unfold Page.apply_recent, apply_recent.
  destruct ((length (normalizeEntries recent) =? 0) && truthy recent
            && isArray recent && (0 <? array_length recent)); [reflexivity|].
  destruct ((length (normalizeEntries recent) =? 0)
            && (length (logs (Page.core p)) =? 0));
    [apply core_renderLogs|].
  destruct (logsEqual (logs (Page.core p))
              (firstn maxLogs (normalizeEntries recent))); [reflexivity|].
  now rewrite core_renderLogs.
Qed.

Lemma core_fetchLogs_settled (rd : Page.reads) (k : bool) (r : response)
  (p : Page.page) :
  Page.core (Page.fetchLogs_settled rd k r p)
  = fetchLogs_settled k r (Page.core p).
Proof.
  unfold Page.fetchLogs_settled, fetchLogs_settled.
  cbn [Page.lift Page.with_core Page.core].
  destruct r; [now rewrite core_apply_recent | reflexivity].
Qed.

Lemma core_setRunning (next : bool) (p : Page.page) :
  Page.core (Page.setRunning next p) = setRunning next (Page.core p).
Proof. reflexivity. Qed.

Lemma core_startPing_settled (rd : Page.reads) (r : response) (p : Page.page) :
  Page.core (Page.startPing_settled rd r p) = startPing_settled r (Page.core p).
Proof.
  destruct r; [|reflexivity]. unfold Page.startPing_settled, startPing_settled.
  cbn [Page.lift Page.with_core Page.core]. rewrite core_setRunning.
  cbn [Page.lift Page.with_core Page.core]. now rewrite core_renderLogs.
Qed.

Lemma core_stopPing_settled (r : response) (p : Page.page) :
  Page.core (Page.stopPing_settled r p) = stopPing_settled r (Page.core p).
Proof.
  destruct r; [|reflexivity]. unfold Page.stopPing_settled, stopPing_settled.
  rewrite core_setRunning.
  destruct (pollTimer (setRunning false (Page.core p))); reflexivity.
Qed.

Lemma core_on_ping_log (rd : Page.reads) (ev : value) (p : Page.page) :
  Page.core (Page.on_ping_log rd ev p) = on_ping_log ev (Page.core p).
Proof.
  unfold Page.on_ping_log, on_ping_log.
  destruct (negb _); [reflexivity | apply core_addLog].
Qed.

Lemma page_step_core (e : Page.event) (p p' : Page.page) :
  Page.step e p = Some p' ->
  match as_log_event p e with
  | Some le => step le (Page.core p) = Some (Page.core p')
  | None => same_log_state (Page.core p) (Page.core p')
  end.
Proof.
  unfold Page.step, step.
  destruct (invoke (Page.core p)) eqn:Hi; simpl; [|discriminate].
  destruct e as [text| |key| | |ev rd|h|rd|rd|rd|i r rd|i r]; simpl.
  - intros [= <-]. reflexivity.
  - intros [= <-]. reflexivity.
  - intros [= <-]. unfold Page.on_keydown.
    destruct (str_eqb key (lit "Enter") && negb (running (Page.core p)));
      reflexivity.
  - intros [= <-]. reflexivity.
  - intros [= <-]. unfold Page.changeLogDir. rewrite Hi. simpl.
    destruct (running (Page.core p)); reflexivity.
  - intros [= <-]. now rewrite core_on_ping_log.
  - destruct (live h (Page.core p)); [|discriminate]. now intros [= <-].
  - intros [= <-]. reflexivity.
  - intros [= <-]. reflexivity.
  - intros [= <-]. reflexivity.
  - destruct (nth_error (pending (Page.core p)) i) as [t|]; [|discriminate].
    intros [= <-]. f_equal. destruct t; cbn [Page.resume resume].
    + now rewrite core_startPing_settled.
    + now rewrite core_stopPing_settled.
    + now rewrite core_fetchLogs_settled.
  - destruct (nth_error (Page.dir_pending p) i); [|discriminate].
    intros [= <-]. unfold Page.logDir_settled. destruct r as [v|msg].
    + destruct (jstype_eqb (typeof v) TString); reflexivity.
    + reflexivity.
Qed.

(** *** What the page shows *)

Lemma keeps_compose (f g : state -> state) :
  keeps f -> keeps g -> keeps (fun c => f (g c)).
Proof.
  intros Hf Hg c. destruct (Hf (g c)) as [A B], (Hg c) as [C D].
  split; congruence.
Qed.

Lemma keeps_setError (m : jsstring) : keeps (setError m).
Proof. now intros c. Qed.

Lemma keeps_set_logPath (v : value) : keeps (set_logPath v).
Proof. now intros c. Qed.

Lemma keeps_set_autoScroll (b : bool) : keeps (set_autoScroll b).
Proof. now intros c. Qed.

Lemma keeps_set_pending (ps : list task) : keeps (set_pending ps).
Proof. now intros c. Qed.

Lemma keeps_renderLogs : keeps renderLogs.
Proof. now intros c. Qed.

Lemma keeps_arm_poll : keeps arm_poll.
Proof. intros c. unfold arm_poll. now destruct (pollTimer c). Qed.

Lemma keeps_after_fetch (k : bool) : keeps (after_fetch k).
Proof. destruct k; [apply keeps_arm_poll | now intros c]. Qed.

Lemma keeps_fetchLogs (k : bool) : keeps (fetchLogs k).
Proof.
  intros c. unfold fetchLogs. destruct (invoke c); simpl;
    [now split | apply keeps_after_fetch].
Qed.

Lemma keeps_startPing (box : jsstring) : keeps (startPing box).
Proof.
  intros c. unfold startPing. destruct (str_eqb (trim box) []); [now split|].
  simpl. now destruct (invoke c).
Qed.

Lemma keeps_stopPing : keeps stopPing.
Proof. intros c. unfold stopPing. simpl. now destruct (invoke c). Qed.

Lemma keeps_clear (h : nat) :
  keeps (fun c => set_pollTimer None (clearInterval h c)).
Proof. now intros c. Qed.

Lemma shows_buffer_lift (f : state -> state) (p : Page.page) :
  keeps f -> shows_buffer p -> shows_buffer (Page.lift f p).
Proof.
  intros Hf [H1 H2]. destruct (Hf (Page.core p)) as [_ Hl].
  unfold shows_buffer. cbn [Page.lift Page.with_core Page.core Page.view].
  now rewrite Hl.
Qed.

Lemma controls_follow_lift (f : state -> state) (p : Page.page) :
  keeps f -> controls_follow p -> controls_follow (Page.lift f p).
Proof.
  intros Hf H. destruct (Hf (Page.core p)) as [Hr _].
  unfold controls_follow in *.
  cbn [Page.lift Page.with_core Page.core Page.ctl]. now rewrite Hr.
Qed.

Lemma updateScrollButtons_list (rd : Page.reads) (v : Page.list_view) :
  Page.shown (Page.updateScrollButtons rd v) = Page.shown v /\
  Page.logEmpty_hidden (Page.updateScrollButtons rd v)
  = Page.logEmpty_hidden v.
Proof.
  unfold Page.updateScrollButtons.
  destruct (PrimFloat.leb (Page.scrollTop rd) autoScrollThreshold);
    [now split|].
  destruct (PrimFloat.leb _ autoScrollThreshold); now split.
Qed.

Lemma updateScrollButtons_shows (rd : Page.reads) (v : Page.list_view) :
  Page.scrollTopBtn_hidden (Page.updateScrollButtons rd v)
  && Page.scrollBottomBtn_hidden (Page.updateScrollButtons rd v) = false.
Proof.
  unfold Page.updateScrollButtons.
  destruct (PrimFloat.leb (Page.scrollTop rd) autoScrollThreshold);
    [reflexivity|].
  destruct (PrimFloat.leb _ autoScrollThreshold); reflexivity.
Qed.

(** After [renderLogs] the page shows the buffer, whatever it showed. *)
Lemma shows_buffer_renderLogs (rd : Page.reads) (p : Page.page) :
  shows_buffer (Page.renderLogs rd p).
Proof.
  destruct p as [c v ct a di dp]. unfold shows_buffer, Page.renderLogs.
  unfold Page.lift, Page.with_core, Page.with_view. simpl.
  destruct (length (logs c) =? 0) eqn:E; simpl.
  - apply Nat.eqb_eq, length_zero_iff_nil in E. rewrite E. now split.
  - rewrite E.
    match goal with
    | |- context [Page.updateScrollButtons rd ?w] =>
        destruct (updateScrollButtons_list rd w) as [-> ->]
    end.
    now split.
Qed.

Lemma controls_follow_renderLogs (rd : Page.reads) (p : Page.page) :
  controls_follow p -> controls_follow (Page.renderLogs rd p).
Proof.
  intros H. unfold Page.renderLogs.
  destruct (length (logs (Page.core (Page.lift renderLogs p))) =? 0);
    exact (controls_follow_lift renderLogs p keeps_renderLogs H).
Qed.

Lemma scroll_button_renderLogs (rd : Page.reads) (p : Page.page) :
  a_scroll_button_shows p -> a_scroll_button_shows (Page.renderLogs rd p).
Proof.
  intros H. unfold a_scroll_button_shows, Page.renderLogs.
  destruct (length (logs (Page.core (Page.lift renderLogs p))) =? 0).
  - exact H.
  - apply updateScrollButtons_shows.
Qed.

Lemma controls_follow_setRunning (next : bool) (p : Page.page) :
  controls_follow (Page.setRunning next p).
Proof.
  unfold controls_follow, Page.setRunning. simpl.
  repeat split; try reflexivity. now intros ->.
Qed.

Lemma shows_buffer_setRunning (next : bool) (p : Page.page) :
  shows_buffer p -> shows_buffer (Page.setRunning next p).
Proof. intros H. exact H. Qed.

Lemma shows_buffer_render_set (rd : Page.reads) (l : list entry)
  (p : Page.page) :
  shows_buffer (Page.renderLogs rd (Page.lift (set_logs l) p)).
Proof. apply shows_buffer_renderLogs. Qed.

(** *** Invariants of the page *)

Section PageInvariant.

Variable I : Page.page -> Prop.

Hypothesis I_edit : forall text p, I p -> I (Page.set_address text p).
Hypothesis I_lift : forall f p, keeps f -> I p -> I (Page.lift f p).
Hypothesis I_render : forall rd p, I p -> I (Page.renderLogs rd p).
Hypothesis I_render_set :
  forall rd l p, I p -> I (Page.renderLogs rd (Page.lift (set_logs l) p)).
Hypothesis I_setRunning : forall next p, I p -> I (Page.setRunning next p).
Hypothesis I_buttons :
  forall rd v p,
    Page.shown v = Page.shown (Page.view p) ->
    Page.logEmpty_hidden v = Page.logEmpty_hidden (Page.view p) ->
    I p -> I (Page.with_view (Page.updateScrollButtons rd v) p).
Hypothesis I_await_dir : forall c k p, I p -> I (Page.await_dir c k p).
Hypothesis I_dir_pending : forall ps p, I p -> I (Page.set_dir_pending ps p).

Lemma invariant_addLog (rd : Page.reads) (item : value) (p : Page.page) :
  I p -> I (Page.addLog rd item p).
Proof.
  intros H. unfold Page.addLog. destruct (as_entry item) as [e|]; [|exact H].
  destruct ((0 <? length (logs (Page.core p))) && _); [exact H|].
  now apply I_render_set.
Qed.

Lemma invariant_apply_recent (rd : Page.reads) (recent : value)
  (p : Page.page) :
  I p -> I (Page.apply_recent rd recent p).
Proof.
  intros H. unfold Page.apply_recent.
  destruct ((length (normalizeEntries recent) =? 0) && truthy recent
            && isArray recent && (0 <? array_length recent)); [exact H|].
  destruct ((length (normalizeEntries recent) =? 0)
            && (length (logs (Page.core p)) =? 0));
    [now apply I_render|].
  destruct (logsEqual (logs (Page.core p))
              (firstn maxLogs (normalizeEntries recent))); [exact H|].
  now apply I_render_set.
Qed.

Lemma invariant_step (e : Page.event) (p p' : Page.page) :
  Page.step e p = Some p' -> I p -> I p'.
Proof.
  unfold Page.step.
  destruct (invoke (Page.core p)) eqn:Hi; simpl; [|discriminate].
  destruct e as [text| |key| | |ev rd|h|rd|rd|rd|i r rd|i r].
  - intros [= <-]. apply I_edit.
  - intros [= <-]. apply I_lift, keeps_startPing.
  - intros [= <-]. unfold Page.on_keydown.
    destruct (str_eqb key (lit "Enter") && negb (running (Page.core p)));
      [apply I_lift, keeps_startPing | auto].
  - intros [= <-]. apply I_lift, keeps_stopPing.
  - intros [= <-] H. unfold Page.changeLogDir.
    destruct (negb (invoke (Page.core p)) || running (Page.core p));
      [exact H|].
    apply I_await_dir. now apply I_lift; [apply keeps_setError|].
  - intros [= <-] H. unfold Page.on_ping_log.
    destruct (negb _); [exact H | now apply invariant_addLog].
  - destruct (live h (Page.core p)); [|discriminate]. intros [= <-].
    apply I_lift, keeps_fetchLogs.
  - intros [= <-] H. unfold Page.on_scroll.
    apply I_buttons; try reflexivity.
    now apply I_lift; [apply keeps_set_autoScroll|].
  - intros [= <-] H. unfold Page.scroll_to_top. now apply I_buttons.
  - intros [= <-] H. unfold Page.scroll_to_bottom. now apply I_buttons.
  - destruct (nth_error (pending (Page.core p)) i) as [t|]; [|discriminate].
    intros [= <-] H.
    assert (H0 := I_lift _ p
                    (keeps_set_pending (remove_nth i (pending (Page.core p))))
                    H).
    set (p0 := Page.lift _ p) in *. clearbody p0.
    destruct t; cbn [Page.resume].
    + destruct r as [baseDir|msg]; cbn [Page.startPing_settled].
      * apply I_lift; [apply keeps_fetchLogs|].
        apply I_setRunning.
        apply I_lift; [apply keeps_set_autoScroll|].
        apply I_render_set.
        now apply I_lift; [apply keeps_set_logPath|].
      * now apply I_lift; [apply keeps_setError|].
    + destruct r as [v|msg]; cbn [Page.stopPing_settled].
      * assert (H1 := I_setRunning false p0 H0).
        destruct (pollTimer (Page.core (Page.setRunning false p0)));
          [|exact H1].
        now apply I_lift; [apply keeps_clear|].
      * now apply I_lift; [apply keeps_setError|].
    + unfold Page.fetchLogs_settled.
      apply I_lift; [apply keeps_after_fetch|].
      destruct r; [now apply invariant_apply_recent | exact H0].
  - destruct (nth_error (Page.dir_pending p) i); [|discriminate].
    intros [= <-] H. unfold Page.logDir_settled.
    assert (H0 := I_dir_pending (remove_nth i (Page.dir_pending p)) p H).
    destruct r as [v|msg].
    + destruct (jstype_eqb (typeof v) TString); [|exact H0].
      now apply I_lift; [apply keeps_set_logPath|].
    + now apply I_lift; [apply keeps_setError|].
Qed.

Lemma invariant_run (evs : list Page.event) (p p' : Page.page) :
  Page.run evs p = Some p' -> I p -> I p'.
Proof.
  revert p. induction evs as [|e evs IH]; simpl; intros p.
  - now intros [= <-].
  - destruct (Page.step e p) as [p1|] eqn:E; [|discriminate].
    intros Hr H. apply (IH p1 Hr). exact (invariant_step e p p1 E H).
Qed.

End PageInvariant.

(** The buffer of the page is bounded as the buffer of the log model is. *)
Lemma page_step_bounded (e : Page.event) (p p' : Page.page) :
  Page.step e p = Some p' ->
  length (logs (Page.core p)) <= maxLogs ->
  length (logs (Page.core p')) <= maxLogs.
Proof.
  intros Hs Hl. assert (H := page_step_core e p p' Hs).
  destruct (as_log_event p e) as [le|].
  - apply (run_bounded [le] (Page.core p)); [|exact Hl].
    simpl. now rewrite H.
  - apply (f_equal logs) in H. simpl in H. now rewrite H.
Qed.

Lemma page_run_bounded (evs : list Page.event) (p p' : Page.page) :
  Page.run evs p = Some p' ->
  length (logs (Page.core p)) <= maxLogs ->
  length (logs (Page.core p')) <= maxLogs.
Proof.
  revert p. induction evs as [|e evs IH]; simpl; intros p.
  - now intros [= <-].
  - destruct (Page.step e p) as [p1|] eqn:E; [|discriminate].
    intros Hr H. apply (IH p1 Hr). exact (page_step_bounded e p p1 E H).
Qed.

(** The events that are none of the log model leave the list and the
    controls as they are. *)
Lemma page_step_view (e : Page.event) (p p' : Page.page) :
  Page.step e p = Some p' ->
  as_log_event p e = None ->
  Page.shown (Page.view p') = Page.shown (Page.view p) /\
  Page.logEmpty_hidden (Page.view p') = Page.logEmpty_hidden (Page.view p) /\
  Page.ctl p' = Page.ctl p.
Proof.
  unfold Page.step.
  destruct (negb (invoke (Page.core p))); [discriminate|].
  destruct e; simpl; try discriminate; try (now intros [= <-]).
  - unfold Page.on_keydown.
    destruct (str_eqb key (lit "Enter") && negb (running (Page.core p)));
      [discriminate | now intros [= <-]].
  - intros [= <-] _. unfold Page.changeLogDir.
    now destruct (negb (invoke (Page.core p)) || running (Page.core p)).
  - intros [= <-] _. unfold Page.scroll_to_top.
    cbn [Page.with_view Page.view Page.ctl].
    match goal with
    | |- context [Page.updateScrollButtons ?rd ?v] =>
        destruct (updateScrollButtons_list rd v) as [A B]
    end.
    now repeat split.
  - intros [= <-] _. unfold Page.scroll_to_bottom.
    cbn [Page.with_view Page.view Page.ctl].
    match goal with
    | |- context [Page.updateScrollButtons ?rd ?v] =>
        destruct (updateScrollButtons_list rd v) as [A B]
    end.
    now repeat split.
  - destruct (nth_error (Page.dir_pending p) i); [|discriminate].
    intros [= <-] _. unfold Page.logDir_settled.
    destruct r as [v|msg]; [|now repeat split].
    now destruct (jstype_eqb (typeof v) TString).
Qed.

(** From a page whose list shows the buffer (of at most 100 entries),
    after any events of the page the list has exactly one item for each
    entry of the buffer, in its order: the text of the item is the line of
    the entry, and its value is the [seq] of the entry as a 32-bit integer
    (so an entry with [seq] 2.5 is numbered 2).  The line that says there is
    no data can be seen exactly when the buffer is empty, and the list has
    at most 100 items. *)
Theorem page_lists_the_buffer (evs : list Page.event) (p p' : Page.page) :
  shows_buffer p ->
  length (logs (Page.core p)) <= 100 ->
  Page.run evs p = Some p' ->
  Page.shown (Page.view p')
  = map (fun e => Page.mkLi (Num.ToInt32 (seq e)) (line e))
      (logs (Page.core p')) /\
  map Page.li_textContent (Page.shown (Page.view p'))
  = map line (logs (Page.core p')) /\
  Page.logEmpty_hidden (Page.view p')
  = negb (length (logs (Page.core p')) =? 0) /\
  length (Page.shown (Page.view p')) <= 100.
Proof.
  intros Hs Hl Hr.
  assert (H : shows_buffer p').
  { revert Hr Hs. apply invariant_run; clear.
    - intros text p H. exact H.
    - intros f p. apply shows_buffer_lift.
    - intros rd p _. apply shows_buffer_renderLogs.
    - intros rd l p _. apply shows_buffer_renderLogs.
    - intros next p H. exact H.
    - intros rd v p Hs He [H1 H2].
      destruct (updateScrollButtons_list rd v) as [A B].
      split; cbn [Page.with_view Page.view Page.core]; congruence.
    - intros c k p H. exact H.
    - intros ps p H. exact H. }
  destruct H as [H1 H2].
  split; [exact H1|]. split; [|split; [exact H2|]].
  - rewrite H1, map_map. reflexivity.
  - rewrite H1, length_map. exact (page_run_bounded evs p p' Hr Hl).
Qed.

Lemma page_lists_the_buffer_witness :
  match Page.run page_session page_loaded with
  | Some p' =>
      map seq (logs (Page.core p')) = [1; 2.5]%float /\
      map Page.li_value (Page.shown (Page.view p')) = [1; 2]%Z /\
      map Page.li_textContent (Page.shown (Page.view p'))
      = map line (logs (Page.core p')) /\
      Page.logEmpty_hidden (Page.view p') = true /\
      length (Page.shown (Page.view p')) <= 100
  | None => False
  end.
Proof.
  destruct (Page.run page_session page_loaded) as [p'|] eqn:E;
    [| vm_compute in E; discriminate E].
  destruct (page_lists_the_buffer page_session page_loaded p')
    as (H1 & H2 & H3 & H4).
  - split; reflexivity.
  - vm_compute. lia.
  - exact E.
  - assert (L : map seq (logs (Page.core p')) = [1; 2.5]%float).
    { vm_compute in E. injection E as <-. reflexivity. }
    split; [exact L|]. split; [|split; [exact H2|split; [|exact H4]]].
    + rewrite H1, map_map. cbn [Page.li_value].
      vm_compute in E. injection E as <-. vm_compute. reflexivity.
    + rewrite H3. vm_compute in E. injection E as <-. reflexivity.
Defined.

(** From a page whose controls follow [running], after any events of
    the page the start button, the address box and the button of the log
    directory are disabled exactly while a probe runs and the stop button
    exactly while none does, [data-running] of the body says the same, and
    the status line of an idle page reads the idle text. *)
Theorem controls_follow_running (evs : list Page.event) (p p' : Page.page) :
  controls_follow p ->
  Page.run evs p = Some p' ->
  let on := running (Page.core p') in
  Page.startBtn_disabled (Page.ctl p') = on /\
  Page.stopBtn_disabled (Page.ctl p') = negb on /\
  Page.addressInput_disabled (Page.ctl p') = on /\
  Page.changeLogDirBtn_disabled (Page.ctl p') = on /\
  Page.body_running (Page.ctl p') = on /\
  (on = false -> Page.statusText (Page.ctl p') = Page.idle_text).
Proof.
  intros Hc Hr. revert Hr Hc. apply invariant_run; clear.
  - intros text p H. exact H.
  - intros f p. apply controls_follow_lift.
  - intros rd p. apply controls_follow_renderLogs.
  - intros rd l p H. apply controls_follow_renderLogs. exact H.
  - intros next p _. apply controls_follow_setRunning.
  - intros rd v p _ _ H. exact H.
  - intros c k p H. exact H.
  - intros ps p H. exact H.
Qed.

Lemma controls_follow_running_witness :
  match Page.run page_session page_loaded with
  | Some p' =>
      let on := running (Page.core p') in
      Page.startBtn_disabled (Page.ctl p') = on /\
      Page.stopBtn_disabled (Page.ctl p') = negb on /\
      Page.addressInput_disabled (Page.ctl p') = on /\
      Page.changeLogDirBtn_disabled (Page.ctl p') = on /\
      Page.body_running (Page.ctl p') = on /\
      (on = false -> Page.statusText (Page.ctl p') = Page.idle_text)
  | None => False
  end.
Proof.
  destruct (Page.run page_session page_loaded) as [p'|] eqn:E;
    [| vm_compute in E; discriminate E].
  apply (controls_follow_running page_session page_loaded p').
  - repeat split; reflexivity.
  - exact E.
Defined.

(** From a page that shows one of the two scroll buttons, after any
    events of the page one of the two can be seen; and when a scroll of the
    list then turns the following of the newest line off, the button that
    leads to the bottom can be seen. *)
Theorem a_scroll_button_always_shows (evs : list Page.event)
  (p p' : Page.page) :
  a_scroll_button_shows p ->
  Page.run evs p = Some p' ->
  a_scroll_button_shows p' /\
  forall rd p'',
    Page.step (Page.Scroll rd) p' = Some p'' ->
    autoScroll (Page.core p'') = false ->
    Page.scrollBottomBtn_hidden (Page.view p'') = false.
Proof.
  intros Hb Hr. split.
  - revert Hr Hb. apply invariant_run; clear.
    + intros text p H. exact H.
    + intros f p _ H. exact H.
    + intros rd p. apply scroll_button_renderLogs.
    + intros rd l p H. now apply scroll_button_renderLogs.
    + intros next p H. exact H.
    + intros rd v p _ _ _. apply updateScrollButtons_shows.
    + intros c k p H. exact H.
    + intros ps p H. exact H.
  - intros rd p''. unfold Page.step.
    destruct (negb (invoke (Page.core p'))); [discriminate|].
    intros [= <-]. unfold Page.on_scroll.
    cbn [Page.lift Page.with_core Page.with_view Page.core Page.view].
    cbv [set_autoScroll autoScroll]. intros Ha.
    unfold Page.updateScrollButtons. rewrite Ha.
    now destruct (PrimFloat.leb (Page.scrollTop rd) autoScrollThreshold).
Qed.

Lemma a_scroll_button_always_shows_witness :
  match Page.run page_session page_loaded with
  | Some p' =>
      a_scroll_button_shows p' /\
      forall rd p'',
        Page.step (Page.Scroll rd) p' = Some p'' ->
        autoScroll (Page.core p'') = false ->
        Page.scrollBottomBtn_hidden (Page.view p'') = false
  | None => False
  end.
Proof.
  destruct (Page.run page_session page_loaded) as [p'|] eqn:E;
    [| vm_compute in E; discriminate E].
  apply (a_scroll_button_always_shows page_session page_loaded p').
  - reflexivity.
  - exact E.
Defined.

(** Typing in the address box, a key other than a starting Enter, the
    two scroll buttons and the commands of the log directory (the click and
    the answers) leave the probe alone: [running], the buffer, the interval,
    the following of the newest line, the commands sent for the probe and
    the answers awaited, the items of the list and every control stay as
    they were.  A click on the button of the log directory while a probe
    runs changes nothing at all. *)
Theorem other_controls_leave_the_probe (e : Page.event) (p p' : Page.page) :
  Page.step e p = Some p' ->
  as_log_event p e = None ->
  (running (Page.core p') = running (Page.core p) /\
   logs (Page.core p') = logs (Page.core p) /\
   pollTimer (Page.core p') = pollTimer (Page.core p) /\
   autoScroll (Page.core p') = autoScroll (Page.core p) /\
   timers (Page.core p') = timers (Page.core p) /\
   invoked (Page.core p') = invoked (Page.core p) /\
   pending (Page.core p') = pending (Page.core p) /\
   renders (Page.core p') = renders (Page.core p)) /\
  Page.shown (Page.view p') = Page.shown (Page.view p) /\
  Page.logEmpty_hidden (Page.view p') = Page.logEmpty_hidden (Page.view p) /\
  Page.ctl p' = Page.ctl p /\
  (e = Page.ClickChangeLogDir -> running (Page.core p) = true -> p' = p).
Proof.
  intros Hs He. assert (H := page_step_core e p p' Hs). rewrite He in H.
  split; [| split; [| split; [| split]]].
  - unfold same_log_state in H.
    repeat split;
      [ apply (f_equal running) in H | apply (f_equal logs) in H
      | apply (f_equal pollTimer) in H | apply (f_equal autoScroll) in H
      | apply (f_equal timers) in H | apply (f_equal invoked) in H
      | apply (f_equal pending) in H | apply (f_equal renders) in H ];
      exact H.
  - apply (page_step_view e p p' Hs He).
  - apply (page_step_view e p p' Hs He).
  - apply (page_step_view e p p' Hs He).
  - intros -> Hrun. revert Hs. unfold Page.step, Page.changeLogDir.
    destruct (negb (invoke (Page.core p))); [discriminate|].
    rewrite Hrun. simpl. now intros [= <-].
Qed.

Lemma other_controls_leave_the_probe_witness :
  match Page.run page_session page_loaded with
  | Some p =>
      match Page.step Page.ClickChangeLogDir p with
      | Some p' => p' = p
      | None => False
      end
  | None => False
  end.
Proof.
  destruct (Page.run page_session page_loaded) as [p|] eqn:E;
    [| vm_compute in E; discriminate E].
  destruct (Page.step Page.ClickChangeLogDir p) as [p'|] eqn:E';
    [| vm_compute in E; injection E as <-; vm_compute in E'; discriminate E'].
  apply (other_controls_leave_the_probe Page.ClickChangeLogDir p p' E');
    [reflexivity | reflexivity |].
  vm_compute in E. injection E as <-. reflexivity.
Defined.

(** The status line of a started probe names what the address box holds
    when the backend answers, not the address that was sent: when the user
    edits the box between the click and the answer, [start_ping] has the
    old address, trimmed, and the status line the new one, trimmed.  The
    list is empty then and the line that says so can be seen. *)
Theorem status_names_the_box_at_the_answer (text : jsstring) (dir : value)
  (rd : Page.reads) (p : Page.page) :
  invoke (Page.core p) = true ->
  pending (Page.core p) = [] ->
  forallb isWhiteSpace (Page.address p) = false ->
  exists p',
    Page.run [Page.ClickStart; Page.EditAddress text;
              Page.Settle 0 (Resolved dir) rd] p = Some p' /\
    invoked (Page.core p')
    = invoked (Page.core p)
      ++ [start_ping (trim (Page.address p)); get_recent_logs] /\
    Page.statusText (Page.ctl p') = Page.running_text ++ trim text /\
    running (Page.core p') = true /\
    Page.shown (Page.view p') = [] /\
    Page.logEmpty_hidden (Page.view p') = false.
Proof.
  intros Hi Hp Hb. apply trim_not_blank in Hb.
  destruct p as [c v ct addr di dp]. destruct c. simpl in Hi, Hp, Hb. subst.
  eexists. split.
  - unfold Page.run, Page.step, Page.startPing, Page.lift, startPing.
    cbn -[trim]. rewrite Hb. cbn -[trim]. reflexivity.
  - cbn -[trim]. rewrite <- app_assoc. repeat split.
Qed.

Lemma status_names_the_box_at_the_answer_witness :
  exists p',
    Page.run [Page.ClickStart; Page.EditAddress (lit " 192.0.2.1");
              Page.Settle 0 (Resolved (VStr (lit "/var/log/ping")))
                some_reads] page_loaded = Some p' /\
    invoked (Page.core p')
    = [start_ping (lit "example.org"); get_recent_logs] /\
    Page.statusText (Page.ctl p') = Page.running_text ++ lit "192.0.2.1".
Proof.
  destruct (status_names_the_box_at_the_answer (lit " 192.0.2.1")
              (VStr (lit "/var/log/ping")) some_reads page_loaded
              eq_refl eq_refl eq_refl) as (p' & H1 & H2 & H3 & _).
  exists p'. split; [exact H1|]. split; [exact H2 | exact H3].
Defined.

(** *** The panel of the alerts *)

(** *** Trimming twice *)






(** *** The form *)

Lemma usable_fallback (b : bool) :
  usable_port (if b then 587%float else 465%float) = true.
Proof. destruct b; reflexivity. Qed.


Lemma collect_port_usable (Number : jsstring -> float) (f : Alert.form) :
  usable_port (Alert.port (Alert.collectSmtpSettings Number f)) = true.
Proof.
  unfold Alert.collectSmtpSettings. cbn [Alert.port].
  match goal with
  | |- usable_port (if ?c then ?x else _) = true => destruct c eqn:E
  end.
  - exact E.
  - apply usable_fallback.
Qed.

(** *** Classes *)

Lemma existsb_class_remove (c d : jsstring) (l : list jsstring) :
  existsb (str_eqb c) (Alert.class_remove d l)
  = existsb (str_eqb c) l && negb (str_eqb c d).
Proof.
  unfold Alert.class_remove. induction l as [|x l IH]; simpl; [reflexivity|].
  destruct (str_eqb x d) eqn:Exd; simpl.
  - rewrite IH. apply str_eqb_eq in Exd. subst x.
    now destruct (str_eqb c d), (existsb (str_eqb c) l).
  - rewrite IH. destruct (str_eqb c x) eqn:Ecx; simpl; [|reflexivity].
    apply str_eqb_eq in Ecx. subst x. now rewrite Exd.
Qed.

Lemma existsb_class_add (c d : jsstring) (l : list jsstring) :
  existsb (str_eqb c) (Alert.class_add d l)
  = existsb (str_eqb c) l || str_eqb c d.
Proof.
  unfold Alert.class_add. destruct (existsb (str_eqb d) l) eqn:E.
  - destruct (str_eqb c d) eqn:Ecd; [|now rewrite orb_false_r].
    apply str_eqb_eq in Ecd. subst d. now rewrite E.
  - rewrite existsb_app. simpl. now rewrite orb_false_r.
Qed.

(** What [setSmtpStatus] leaves of the classes. *)
Lemma setSmtpStatus_classes (message : jsstring) (k : Alert.kind)
  (a : Alert.panel) (c : jsstring) :
  existsb (str_eqb c)
    (Alert.smtpStatus_classes (Alert.setSmtpStatus message k a))
  = match Alert.class_of k with
    | Some d =>
        if str_eqb c d then true
        else existsb (str_eqb c) (Alert.smtpStatus_classes a)
             && negb (str_eqb c (lit "success"))
             && negb (str_eqb c (lit "error"))
    | None =>
        existsb (str_eqb c) (Alert.smtpStatus_classes a)
        && negb (str_eqb c (lit "success")) && negb (str_eqb c (lit "error"))
    end.
Proof.
  unfold Alert.setSmtpStatus. cbn [Alert.smtpStatus_classes].
  destruct (Alert.class_of k) as [d|].
  - rewrite existsb_class_add, !existsb_class_remove.
    destruct (str_eqb c d); [apply orb_true_r | apply orb_false_r].
  - now rewrite !existsb_class_remove.
Qed.

Lemma setSmtpStatus_not_both (message : jsstring) (k : Alert.kind)
  (a : Alert.panel) :
  marked_both (Alert.smtpStatus_classes (Alert.setSmtpStatus message k a))
  = false.
Proof.
  unfold marked_both. rewrite !setSmtpStatus_classes.
  destruct k; simpl; rewrite ?andb_false_r; reflexivity.
Qed.

(** *** Test mails *)

Lemma count_remove_nth {A : Type} (f : A -> bool) (i : nat) (l : list A)
  (t : A) :
  nth_error l i = Some t ->
  length (filter f l)
  = length (filter f (remove_nth i l)) + (if f t then 1 else 0).
Proof.
  unfold remove_nth. revert i. induction l as [|x l IH]; intros [|i];
    try discriminate.
  - intros [= ->]. cbn [firstn skipn app filter].
    destruct (f t); cbn [length]; lia.
  - intros H. assert (E := IH i H).
    change (firstn (S i) (x :: l) ++ skipn (S (S i)) (x :: l))
      with (x :: (firstn i l ++ skipn (S i) l)).
    cbn [filter]. destruct (f x); cbn [length]; lia.
Qed.

Lemma single_flight_step (Number : jsstring -> float)
  (String : value -> jsstring) (e : Alert.event) (a a' : Alert.panel) :
  Alert.step Number String e a = Some a' ->
  single_flight a -> single_flight a'.
Proof.
  unfold Alert.step. destruct (negb (Alert.invoke a)) eqn:Hi; [discriminate|].
  destruct e as [f|mode| | |i r].
  - intros [= <-] H. exact H.
  - destruct (Alert.smtpTlsMode (Alert.fields a)); [|discriminate].
    intros [= <-] H. exact H.
  - intros [= <-] (H1 & H2 & H3). unfold Alert.testSmtp. rewrite Hi.
    destruct (Alert.sendingTest a) eqn:Hs.
    + unfold single_flight. now rewrite Hs.
    + unfold single_flight, tests_in_flight in *. simpl.
      rewrite filter_app, length_app. simpl. rewrite H1. repeat split.
  - intros [= <-] (H1 & H2 & H3). unfold Alert.exportAlertSettings.
    rewrite Hi. unfold single_flight, tests_in_flight in *. simpl.
    rewrite filter_app, length_app. simpl. rewrite H1, Nat.add_0_r.
    now repeat split.
  - destruct (nth_error (Alert.pending a) i) as [t|] eqn:En; [|discriminate].
    intros [= <-] (H1 & H2 & H3).
    unfold tests_in_flight in H1.
    rewrite (count_remove_nth _ i _ t En) in H1.
    destruct t; cbn [Alert.resume].
    + unfold single_flight, tests_in_flight, Alert.testSmtp_settled.
      destruct r; simpl; repeat split;
        destruct (Alert.sendingTest a); lia.
    + unfold single_flight, tests_in_flight, Alert.exportAlertSettings_settled.
      rewrite Nat.add_0_r in H1.
      destruct r as [v|msg]; [destruct (negb (truthy v))|]; simpl;
        now repeat split.
Qed.

Lemma tests_sent_app (l m : list Alert.command) :
  tests_sent (l ++ m) = tests_sent l ++ tests_sent m.
Proof. unfold tests_sent. apply flat_map_app. Qed.

Lemma step_tests_sent (Number : jsstring -> float)
  (String : value -> jsstring) (e : Alert.event) (a a' : Alert.panel) :
  Alert.step Number String e a = Some a' ->
  tests_sent (Alert.invoked a') = tests_sent (Alert.invoked a) \/
  tests_sent (Alert.invoked a')
  = tests_sent (Alert.invoked a)
    ++ [Alert.collectSmtpSettings Number (Alert.fields a)].
Proof.
  unfold Alert.step. destruct (negb (Alert.invoke a)) eqn:Hi; [discriminate|].
  destruct e as [f|mode| | |i r].
  - intros [= <-]. now left.
  - destruct (Alert.smtpTlsMode (Alert.fields a)); [|discriminate].
    intros [= <-]. now left.
  - intros [= <-]. unfold Alert.testSmtp. rewrite Hi.
    destruct (Alert.sendingTest a); [now left|]. right.
    simpl. now rewrite tests_sent_app.
  - intros [= <-]. unfold Alert.exportAlertSettings. rewrite Hi. left.
    simpl. rewrite tests_sent_app. simpl. apply app_nil_r.
  - destruct (nth_error (Alert.pending a) i) as [t|]; [|discriminate].
    intros [= <-]. left. destruct t; cbn [Alert.resume].
    + unfold Alert.testSmtp_settled. now destruct r.
    + unfold Alert.exportAlertSettings_settled.
      destruct r as [v|msg]; [destruct (negb (truthy v))|]; reflexivity.
Qed.

Lemma step_status (Number : jsstring -> float)
  (String : value -> jsstring) (e : Alert.event) (a a' : Alert.panel) :
  Alert.step Number String e a = Some a' ->
  Alert.smtpStatus_classes a' = Alert.smtpStatus_classes a \/
  exists message k a0,
    Alert.smtpStatus_classes a0 = Alert.smtpStatus_classes a /\
    Alert.smtpStatus_classes a'
    = Alert.smtpStatus_classes (Alert.setSmtpStatus message k a0).
Proof.
  unfold Alert.step. destruct (negb (Alert.invoke a)) eqn:Hi; [discriminate|].
  destruct e as [f|mode| | |i r].
  - intros [= <-]. now left.
  - destruct (Alert.smtpTlsMode (Alert.fields a)); [|discriminate].
    intros [= <-]. now left.
  - intros [= <-]. unfold Alert.testSmtp. rewrite Hi.
    destruct (Alert.sendingTest a); [now left|]. right.
    exists Alert.sending_status, Alert.Plain, (Alert.setTestSending true a).
    split; reflexivity.
  - intros [= <-]. unfold Alert.exportAlertSettings. rewrite Hi. right.
    exists Alert.exporting_status, Alert.Plain, a. split; reflexivity.
  - destruct (nth_error (Alert.pending a) i) as [t|]; [|discriminate].
    intros [= <-]. right.
    set (a0 := Alert.set_pending _ a).
    destruct t; cbn [Alert.resume].
    + unfold Alert.testSmtp_settled. destruct r as [v|msg].
      * exists (if truthy v then String v else Alert.sent_status),
          Alert.Success, a0. split; reflexivity.
      * exists msg, Alert.Error, a0. split; reflexivity.
    + unfold Alert.exportAlertSettings_settled.
      destruct r as [v|msg]; [destruct (negb (truthy v))|].
      * exists Alert.export_cancelled_status, Alert.Plain, a0.
        split; reflexivity.
      * exists (Alert.exported_to ++ String v), Alert.Success, a0.
        split; reflexivity.
      * exists msg, Alert.Error, a0. split; reflexivity.
Qed.



(** When the user chooses a TLS mode, no box but the port's changes; a
    port of the user's own stays as it is; a port box that is blank or holds
    465 or 587 (white space around it aside) gets the port of the mode, 587
    for "starttls" and 465 for any other, and that is the port
    [collectSmtpSettings] then returns; running the listener again changes
    nothing. *)
Theorem tls_change_keeps_custom_port (Number : jsstring -> float)
  (mode box : jsstring) (f : Alert.form) :
  Number (lit "587") = 587%float ->
  Number (lit "465") = 465%float ->
  Alert.smtpPort f = Some box ->
  let chosen := Alert.set_tls mode f in
  let f' := Alert.on_tls_change chosen in
  let starttls := str_eqb mode (lit "starttls") in
  (default_or_blank box = false -> f' = chosen) /\
  (default_or_blank box = true ->
   Alert.smtpPort f' = Some (if starttls then lit "587" else lit "465") /\
   Alert.port (Alert.collectSmtpSettings Number f')
   = if starttls then 587%float else 465%float) /\
  (exists text, f' = Alert.set_smtpPort text chosen) /\
  Alert.on_tls_change f' = f'.
Proof.
  intros H587 H465 Hbox chosen f' starttls.
  assert (Hc : Alert.smtpPort chosen = Some box) by exact Hbox.
  assert (Hm : Alert.smtpTlsMode chosen = Some mode) by reflexivity.
  assert (Hd : forall g, Alert.smtpTlsMode g = Some mode ->
            Alert.smtpPort g
            = Some (if starttls then lit "587" else lit "465") ->
            Alert.on_tls_change g = g).
  { intros g Hgm Hgp. unfold Alert.on_tls_change. rewrite Hgm, Hgp.
    fold starttls.
    replace (str_eqb (trim (if starttls then lit "587" else lit "465")) []
             || str_eqb (trim (if starttls then lit "587" else lit "465"))
                  (lit "465")
             || str_eqb (trim (if starttls then lit "587" else lit "465"))
                  (lit "587")) with true by (now destruct starttls).
    destruct g; unfold Alert.set_smtpPort; simpl in *. congruence. }
  assert (Hf : f' = if default_or_blank box
                    then Alert.set_smtpPort
                           (if starttls then lit "587" else lit "465") chosen
                    else chosen).
  { unfold f', Alert.on_tls_change. rewrite Hm, Hc. reflexivity. }
  destruct (default_or_blank box) eqn:Eb.
  - split; [discriminate|]. split; [|split].
    + intros _. split; [now rewrite Hf|].
      rewrite Hf. unfold Alert.collectSmtpSettings.
      cbn [Alert.port Alert.set_smtpPort Alert.smtpPort Alert.smtpTlsMode
           Alert.set_tls chosen Alert.value_or].
      fold starttls. destruct starttls; [rewrite H587 | rewrite H465];
        reflexivity.
    + eexists. exact Hf.
    + rewrite Hf. apply Hd; reflexivity.
  - split; [now intros _|]. split; [discriminate|]. split.
    + exists box. rewrite Hf. destruct f. unfold chosen, Alert.set_tls,
        Alert.set_smtpPort. simpl in *. congruence.
    + rewrite Hf. unfold Alert.on_tls_change. rewrite Hm, Hc.
      unfold default_or_blank in Eb. now rewrite Eb.
Qed.

Lemma tls_change_keeps_custom_port_witness :
  let f' := Alert.on_tls_change (Alert.set_tls (lit "starttls") form_filled) in
  Alert.smtpPort f' = Some (lit "587") /\
  Alert.port (Alert.collectSmtpSettings number_of_port f') = 587%float.
Proof.
  apply (tls_change_keeps_custom_port number_of_port (lit "starttls")
           (lit " 465 ") form_filled);
    reflexivity.
Defined.

(** From a panel with no test mail on its way and both buttons in
    use, after any events of the panel at most one test mail is on its way:
    one exactly while [sendingTest] is set, and the button of the test and
    the button that saves are disabled exactly then, so that the answer to
    the test, good or bad, gives both back.  A click while a test is on its
    way sends nothing and changes nothing, and every test mail that was sent
    carries a port that is a finite number above zero. *)
Theorem one_test_mail_at_a_time (Number : jsstring -> float)
  (String : value -> jsstring) (evs : list Alert.event)
  (a a' : Alert.panel) :
  quiet a ->
  Alert.run Number String evs a = Some a' ->
  tests_in_flight a' = (if Alert.sendingTest a' then 1 else 0) /\
  Alert.testSmtpBtn_disabled a' = Alert.sendingTest a' /\
  Alert.saveSmtpBtn_disabled a' = Alert.sendingTest a' /\
  (Alert.sendingTest a' = true ->
   Alert.step Number String Alert.ClickTest a' = Some a') /\
  (forall s, In s (tests_sent (Alert.invoked a')) ->
             In s (tests_sent (Alert.invoked a)) \/
             usable_port (Alert.port s) = true).
Proof.
  intros (Q1 & Q2 & Q3 & Q4) Hr.
  assert (H0 : single_flight a).
  { unfold single_flight. now rewrite Q1, Q2, Q3, Q4. }
  clear Q2 Q3 Q4.
  assert (Hi : Alert.invoke a = true -> Alert.invoke a' = true).
  { clear Q1. revert a Hr H0. induction evs as [|e evs IH]; simpl; intros a.
    - now intros [= <-].
    - destruct (Alert.step Number String e a) as [a1|] eqn:E; [|discriminate].
      intros Hr H0 Hi. apply (IH a1 Hr (single_flight_step _ _ _ _ _ E H0)).
      revert E. unfold Alert.step. rewrite Hi. simpl.
      destruct e as [f|mode| | |i r].
      + now intros [= <-].
      + destruct (Alert.smtpTlsMode (Alert.fields a)); [|discriminate].
        now intros [= <-].
      + intros [= <-]. unfold Alert.testSmtp. rewrite Hi. simpl.
        now destruct (Alert.sendingTest a).
      + intros [= <-]. unfold Alert.exportAlertSettings. now rewrite Hi.
      + destruct (nth_error (Alert.pending a) i) as [t|]; [|discriminate].
        intros [= <-]. destruct t; cbn [Alert.resume].
        * unfold Alert.testSmtp_settled. now destruct r.
        * unfold Alert.exportAlertSettings_settled.
          destruct r as [v|msg]; [destruct (negb (truthy v))|]; exact Hi. }
  assert (H : single_flight a' /\
              forall s, In s (tests_sent (Alert.invoked a')) ->
                        In s (tests_sent (Alert.invoked a)) \/
                        usable_port (Alert.port s) = true).
  { clear Hi Q1. revert a Hr H0. induction evs as [|e evs IH]; simpl; intros a.
    - intros [= <-] H0. split; [exact H0 | now left].
    - destruct (Alert.step Number String e a) as [a1|] eqn:E; [|discriminate].
      intros Hr H0.
      destruct (IH a1 Hr (single_flight_step _ _ _ _ _ E H0)) as [H1 H2].
      split; [exact H1|]. intros s Hs.
      destruct (H2 s Hs) as [Hin|Hu]; [|now right].
      destruct (step_tests_sent _ _ _ _ _ E) as [R|R]; rewrite R in Hin.
      + now left.
      + apply in_app_or in Hin. destruct Hin as [Hin|[<-|[]]]; [now left|].
        right. apply collect_port_usable. }
  destruct H as [(H1 & H2 & H3) H4].
  repeat split; try assumption.
  intros Hs. assert (Hi' : Alert.invoke a' = true).
  { apply Hi. destruct evs as [|e evs]; simpl in Hr.
    - injection Hr as <-. congruence.
    - unfold Alert.step in Hr. now destruct (Alert.invoke a). }
  unfold Alert.step, Alert.testSmtp. now rewrite Hi', Hs.
Qed.

Lemma one_test_mail_at_a_time_witness :
  match Alert.run number_of_port string_of_text panel_session panel_opened
  with
  | Some a' =>
      tests_in_flight a' = (if Alert.sendingTest a' then 1 else 0) /\
      Alert.testSmtpBtn_disabled a' = Alert.sendingTest a' /\
      Alert.saveSmtpBtn_disabled a' = Alert.sendingTest a' /\
      (Alert.sendingTest a' = true ->
       Alert.step number_of_port string_of_text Alert.ClickTest a'
       = Some a') /\
      (forall s, In s (tests_sent (Alert.invoked a')) ->
                 In s (tests_sent (Alert.invoked panel_opened)) \/
                 usable_port (Alert.port s) = true)
  | None => False
  end.
Proof.
  destruct (Alert.run number_of_port string_of_text panel_session
              panel_opened) as [a'|] eqn:E;
    [| vm_compute in E; discriminate E].
  apply (one_test_mail_at_a_time number_of_port string_of_text panel_session
           panel_opened a').
  - repeat split; reflexivity.
  - exact E.
Defined.

(** From a status line that is not marked as both a success and an
    error, after any events of the panel it is not marked as both; the
    classes of the line other than these two stay as they were. *)
Theorem status_marks_exclude_each_other (Number : jsstring -> float)
  (String : value -> jsstring) (evs : list Alert.event)
  (a a' : Alert.panel) :
  marked_both (Alert.smtpStatus_classes a) = false ->
  Alert.run Number String evs a = Some a' ->
  marked_both (Alert.smtpStatus_classes a') = false /\
  forall c, str_eqb c (lit "success") = false ->
            str_eqb c (lit "error") = false ->
            existsb (str_eqb c) (Alert.smtpStatus_classes a')
            = existsb (str_eqb c) (Alert.smtpStatus_classes a).
Proof.
  revert a. induction evs as [|e evs IH]; simpl; intros a Hm.
  - intros [= <-]. split; [exact Hm | reflexivity].
  - destruct (Alert.step Number String e a) as [a1|] eqn:E; [|discriminate].
    intros Hr.
    destruct (step_status _ _ _ _ _ E) as [R|(message & k & a0 & R0 & R)].
    + rewrite <- R in Hm. destruct (IH a1 Hm Hr) as [H1 H2].
      split; [exact H1|]. intros c Hs He. now rewrite (H2 c Hs He), R.
    + assert (Hm1 : marked_both (Alert.smtpStatus_classes a1) = false).
      { rewrite R. apply setSmtpStatus_not_both. }
      destruct (IH a1 Hm1 Hr) as [H1 H2].
      split; [exact H1|]. intros c Hs He.
      rewrite (H2 c Hs He), R, setSmtpStatus_classes, R0, Hs, He.
      destruct k; simpl; rewrite ?Hs, ?He, ?andb_true_r; reflexivity.
Qed.

Lemma status_marks_exclude_each_other_witness :
  match Alert.run number_of_port string_of_text panel_session panel_opened
  with
  | Some a' =>
      marked_both (Alert.smtpStatus_classes a') = false /\
      existsb (str_eqb (lit "status")) (Alert.smtpStatus_classes a')
      = existsb (str_eqb (lit "status")) (Alert.smtpStatus_classes panel_opened)
  | None => False
  end.
Proof.
  destruct (Alert.run number_of_port string_of_text panel_session
              panel_opened) as [a'|] eqn:E;
    [| vm_compute in E; discriminate E].
  destruct (status_marks_exclude_each_other number_of_port string_of_text
              panel_session panel_opened a' eq_refl E) as [H1 H2].
  split; [exact H1|]. apply H2; reflexivity.
Defined.
